(** * Binary heap and priority queue of trigologiaa/go

    A shallow embedding of [heap/heap.go] and
    [priority_queue/priority_queue.go], and the properties of the two
    packages; then the packages [bitmap], [stack] and [queue].

    Conventions of the embedding.
    - A Go slice [[]T] is a [list T]; [s[i]] is the lookup [s !! i], which
      is [None] exactly where Go panics with an index out of range.
    - A method with a pointer receiver takes the receiver's value and
      returns the value it leaves behind (explicit state passing).
    - A computation returns an [option]: [None] is a run that does not
      return (a run-time panic, or a loop that used its whole iteration
      budget). Every method is proved to return on every input.
    - Slice indices are [nat]. The Go code computes them as [int]; a slice
      has fewer than [2^62] elements on every platform Go runs on, so
      [2*i+2] does not wrap, and [i-1] is only computed for [i > 0].
    - A Go [int] stored in the data (a priority, the result of a
      comparator) is a [Z]; where the code does arithmetic on it the
      wrap-around is written out ([wrap]). *)

From Stdlib Require Import ZArith Lia Sorting.Sorted.
From stdpp Require Import base tactics option list strings.

Local Open Scope Z_scope.

(** ** Go values *)

(** The zero value of a Go type ([var x T]). *)
Class GoZero (T : Type) := zero_value : T.

#[export] Instance GoZero_Z : GoZero Z := 0.
#[export] Instance GoZero_string : GoZero string := EmptyString.

(** Go's [error]: [nil], or the message carried by [errors.New]. *)
Definition error := option string.

(** [errors.New(msg)] *)
Definition errors_New (msg : string) : error := Some msg.

(** The width of Go's [int], fixed by the platform. *)
Inductive int_width := W32 | W64.

Definition bits (w : int_width) : Z :=
  match w with W32 => 32 | W64 => 64 end.

Definition min_int (w : int_width) : Z := - 2 ^ (bits w - 1).
Definition max_int (w : int_width) : Z := 2 ^ (bits w - 1) - 1.

Definition in_int (w : int_width) (z : Z) : Prop :=
  min_int w <= z <= max_int w.

(** Two's complement wrap-around of an [int] result. *)
Definition wrap (w : int_width) (z : Z) : Z :=
  (z + 2 ^ (bits w - 1)) mod 2 ^ bits w - 2 ^ (bits w - 1).

(** ** Package heap *)

Module heap.

Section Heap.
Context {T : Type} `{GoZero T}.

(** [type Heap[T any] struct { elements []T; compare func(a T, b T) int }] *)
Record Heap := mkHeap {
  elements : list T;
  compare : T -> T -> Z
}.

Definition NewGenericHeap (compare : T -> T -> Z) : Heap :=
  {| compare := compare; elements := [] |}.

Definition NewMinHeap (compare : T -> T -> Z) : Heap :=
  {| compare := compare; elements := [] |}.

Definition NewMaxHeap (compare : T -> T -> Z) : Heap :=
  let comp := fun a b => compare b a in
  {| compare := comp; elements := [] |}.

Definition Size (h : Heap) : nat := length (elements h).

Definition Elements (h : Heap) : list T := elements h.

Definition Comparator (h : Heap) : T -> T -> Z := compare h.

(** [es[i], es[j] = es[j], es[i]]: both operands are read (and
    bounds-checked) first, then [es[i]] and [es[j]] are assigned in that
    order. *)
Definition swap (es : list T) (i j : nat) : option (list T) :=
  x ← es !! j;
  y ← es !! i;
  Some (<[j := y]> (<[i := x]> es)).

Section loops.
Variable cmp : T -> T -> Z.

(** The loop of [upHeap]; [fuel] bounds the number of times the loop
    condition is evaluated. *)
Fixpoint upHeap_loop (fuel : nat) (es : list T) (i : nat)
  : option (list T) :=
  match fuel with
  | O => None
  | S fuel' =>
      if decide (0 < i)%nat then
        let parent := ((i - 1) / 2)%nat in
        x ← es !! i;
        y ← es !! parent;
        if decide (cmp x y > 0) then Some es
        else
          es' ← swap es i parent;
          upHeap_loop fuel' es' parent
      else Some es
  end.

(** The choice of [smallest] in one iteration of [downHeap]. *)
Definition smallest_of (es : list T) (i : nat) : option nat :=
  let left := (2 * i + 1)%nat in
  let right := (2 * i + 2)%nat in
  let smallest := i in
  smallest ←
    (if decide (left < length es)%nat then
       l ← es !! left;
       s ← es !! smallest;
       Some (if decide (cmp l s < 0) then left else smallest)
     else Some smallest);
  if decide (right < length es)%nat then
    r ← es !! right;
    s ← es !! smallest;
    Some (if decide (cmp r s < 0) then right else smallest)
  else Some smallest.

(** The loop of [downHeap]. *)
Fixpoint downHeap_loop (fuel : nat) (es : list T) (i : nat)
  : option (list T) :=
  match fuel with
  | O => None
  | S fuel' =>
      smallest ← smallest_of es i;
      if decide (smallest = i) then Some es
      else
        es' ← swap es i smallest;
        downHeap_loop fuel' es' smallest
  end.
End loops.

(** [upHeap] moves [i] to its parent on every iteration but the last:
    [i + 1] evaluations of the loop condition are enough. *)
Definition upHeap (h : Heap) (i : nat) : option Heap :=
  es ← upHeap_loop (compare h) (S i) (elements h) i;
  Some {| elements := es; compare := compare h |}.

(** [downHeap] moves [i] to a child on every iteration but the last:
    [Size + 1] iterations are enough. *)
Definition downHeap (h : Heap) (i : nat) : option Heap :=
  es ← downHeap_loop (compare h) (S (Size h)) (elements h) i;
  Some {| elements := es; compare := compare h |}.

Definition Insert (h : Heap) (element : T) : option Heap :=
  let h := {| elements := elements h ++ [element]; compare := compare h |} in
  upHeap h (length (elements h) - 1).

Definition Remove (h : Heap) : option (T * error * Heap) :=
  let element := zero_value in
  if decide (Size h = 0%nat) then
    Some (element, errors_New "empty heap", h)
  else
    element ← elements h !! 0%nat;
    last ← elements h !! (Size h - 1)%nat;
    let h := {| elements := <[0%nat := last]> (elements h);
                compare := compare h |} in
    let h := {| elements := take (Size h - 1) (elements h);
                compare := compare h |} in
    h ← downHeap h 0;
    Some (element, None, h).

Definition Peek (h : Heap) : option (T * error * Heap) :=
  if decide (Size h = 0%nat) then
    let zero := zero_value in
    Some (zero, errors_New "empty heap", h)
  else
    x ← elements h !! 0%nat;
    Some (x, None, h).

End Heap.

Arguments Heap T : clear implicits.

End heap.

(** [intComparator] of the heap package's tests. *)
Definition intComparator (a b : Z) : Z :=
  if decide (a < b) then -1
  else if decide (a > b) then 1
  else 0.

(** ** Package priorityqueue *)

Module priorityqueue.

Section PriorityQueue.
Context {T : Type} `{GoZero T}.

(** [type prioritized[T any] struct { value T; priority int }] *)
Record prioritized := mkPrioritized {
  value : T;
  priority : Z
}.

#[local] Instance GoZero_prioritized : GoZero prioritized :=
  {| value := zero_value; priority := 0 |}.

(** [type PriorityQueue[T any] struct { heap *heap.Heap[prioritized[T]] }] *)
Record PriorityQueue := mkPriorityQueue {
  heap : heap.Heap prioritized
}.

Section width.
(** The platform's [int]: [a.priority - b.priority] wraps around. *)
Variable w : int_width.

Definition NewMinPriorityQueue : PriorityQueue :=
  let compare := fun a b => wrap w (priority a - priority b) in
  {| heap := heap.NewGenericHeap compare |}.

Definition NewMaxPriorityQueue : PriorityQueue :=
  let compare := fun a b => wrap w (priority b - priority a) in
  {| heap := heap.NewGenericHeap compare |}.
End width.

Definition Enqueue (pq : PriorityQueue) (value : T) (priority : Z)
  : option PriorityQueue :=
  h ← heap.Insert (heap pq) {| value := value; priority := priority |};
  Some {| heap := h |}.

Definition Dequeue (pq : PriorityQueue) : option (T * error * PriorityQueue) :=
  '(item, err, h) ← heap.Remove (heap pq);
  let pq := {| heap := h |} in
  match err with
  | Some _ =>
      let zero := zero_value in
      Some (zero, err, pq)
  | None => Some (value item, None, pq)
  end.

Definition Peek (pq : PriorityQueue) : option (T * error * PriorityQueue) :=
  '(item, err, h) ← heap.Peek (heap pq);
  let pq := {| heap := h |} in
  match err with
  | Some _ =>
      let zero := zero_value in
      Some (zero, err, pq)
  | None => Some (value item, None, pq)
  end.

Definition Size (pq : PriorityQueue) : nat := heap.Size (heap pq).

Definition IsEmpty (pq : PriorityQueue) : bool :=
  bool_decide (Size pq = 0%nat).

Definition Clear (pq : PriorityQueue) : PriorityQueue :=
  {| heap := heap.NewGenericHeap (heap.Comparator (heap pq)) |}.

End PriorityQueue.

Arguments prioritized T : clear implicits.
Arguments PriorityQueue T : clear implicits.
End priorityqueue.

#[export] Existing Instance priorityqueue.GoZero_prioritized.

(** ** Comparators, the heap property and the callers' procedures *)

(** A comparator in the sense of the package's documentation: its sign is
    negative, zero or positive as [a] is before, level with, or after [b].
    It orders the elements totally when swapping the arguments swaps the
    sign, and "not after" is transitive. Two elements that compare as equal
    need not be the same element (a [Person] is compared by age, a
    [prioritized] by priority). *)
Record TotalOrder {T : Type} (cmp : T -> T -> Z) : Prop := {
  cmp_antisym : forall a b, Z.sgn (cmp a b) = - Z.sgn (cmp b a);
  cmp_trans : forall a b c, cmp a b <= 0 -> cmp b c <= 0 -> cmp a c <= 0
}.

(** [c] is the index of a child of index [p]. *)
Definition is_child (p c : nat) : Prop :=
  (c = 2 * p + 1 \/ c = 2 * p + 2)%nat.

(** No parent compares greater than one of its children. *)
Definition heap_property {T : Type} (cmp : T -> T -> Z) (es : list T) : Prop :=
  forall i c x y,
    is_child i c -> es !! i = Some x -> es !! c = Some y -> cmp x y <= 0.

(** The heaps built from the empty heap by calls of [Insert] and [Remove]. *)
Inductive reachable {T : Type} `{GoZero T} (cmp : T -> T -> Z)
  : heap.Heap T -> Prop :=
| reachable_new : reachable cmp (heap.NewGenericHeap cmp)
| reachable_Insert h e h' :
    reachable cmp h -> heap.Insert h e = Some h' -> reachable cmp h'
| reachable_Remove h r h' :
    reachable cmp h -> heap.Remove h = Some (r, h') -> reachable cmp h'.

(** [for _, x := range xs { h.Insert(x) }] *)
Fixpoint insert_all {T : Type} (h : heap.Heap T) (xs : list T)
  : option (heap.Heap T) :=
  match xs with
  | [] => Some h
  | x :: xs' => h' ← heap.Insert h x; insert_all h' xs'
  end.

(** The same loop, recording [h.Elements()] after every insertion (the
    loop of the package's tests). *)
Fixpoint insert_trace {T : Type} (h : heap.Heap T) (xs : list T)
  : option (list (list T)) :=
  match xs with
  | [] => Some []
  | x :: xs' =>
      h' ← heap.Insert h x;
      layouts ← insert_trace h' xs';
      Some (heap.Elements h' :: layouts)
  end.

(** [for h.Size() > 0 { x, _ := h.Remove(); out = append(out, x) }] *)
Fixpoint remove_all_loop {T : Type} `{GoZero T} (fuel : nat) (h : heap.Heap T)
  : option (list T * heap.Heap T) :=
  match fuel with
  | O => None
  | S fuel' =>
      if decide (heap.Size h = 0%nat) then Some ([], h)
      else
        '(x, _, h') ← heap.Remove h;
        '(out, h'') ← remove_all_loop fuel' h';
        Some (x :: out, h'')
  end.

(** Every iteration removes one element: [Size + 1] evaluations of the loop
    condition are enough. *)
Definition remove_all {T : Type} `{GoZero T} (h : heap.Heap T)
  : option (list T * heap.Heap T) :=
  remove_all_loop (S (heap.Size h)) h.

(** What holds of the slice while [upHeap] is at index [i]: the heap
    property on every edge but the one into [i], and between the parent of
    [i] and the children of [i]. *)
Definition up_inv {T : Type} (cmp : T -> T -> Z) (es : list T) (i : nat) : Prop :=
  (forall p c x y,
      is_child p c -> c <> i -> es !! p = Some x -> es !! c = Some y ->
      cmp x y <= 0) /\
  (forall g c x y,
      is_child g i -> is_child i c -> es !! g = Some x -> es !! c = Some y ->
      cmp x y <= 0).

(** What holds of the slice while [downHeap] is at index [i]: the heap
    property on every edge but those out of [i], and between the parent of
    [i] and the children of [i]. *)
Definition down_inv {T : Type} (cmp : T -> T -> Z) (es : list T) (i : nat) : Prop :=
  (forall p c x y,
      is_child p c -> p <> i -> es !! p = Some x -> es !! c = Some y ->
      cmp x y <= 0) /\
  (forall g c x y,
      is_child g i -> is_child i c -> es !! g = Some x -> es !! c = Some y ->
      cmp x y <= 0).

(** [type Person struct { name string; age int }] and the comparator
    [peopleFromOldestToYoungest] of the heap package's tests. *)
Record Person := mkPerson {
  name : string;
  age : Z
}.

#[export] Instance GoZero_Person : GoZero Person :=
  {| name := zero_value; age := zero_value |}.


(** A call of a method of a priority queue, and what the caller sees of it. *)
Inductive call (T : Type) :=
| CallEnqueue (value : T) (priority : Z)
| CallDequeue
| CallPeek
| CallIsEmpty
| CallSize
| CallClear.

Inductive result (T : Type) :=
| Returned
| ReturnedValue (value : T) (err : error)
| ReturnedBool (b : bool)
| ReturnedInt (n : nat).

Arguments CallEnqueue {T}.
Arguments CallDequeue {T}.
Arguments CallPeek {T}.
Arguments CallIsEmpty {T}.
Arguments CallSize {T}.
Arguments CallClear {T}.
Arguments Returned {T}.
Arguments ReturnedValue {T}.
Arguments ReturnedBool {T}.
Arguments ReturnedInt {T}.

Definition do_call {T : Type} `{GoZero T}
    (pq : priorityqueue.PriorityQueue T) (c : call T)
  : option (result T * priorityqueue.PriorityQueue T) :=
  match c with
  | CallEnqueue v p =>
      pq' ← priorityqueue.Enqueue pq v p; Some (Returned, pq')
  | CallDequeue =>
      '(v, err, pq') ← priorityqueue.Dequeue pq; Some (ReturnedValue v err, pq')
  | CallPeek =>
      '(v, err, pq') ← priorityqueue.Peek pq; Some (ReturnedValue v err, pq')
  | CallIsEmpty => Some (ReturnedBool (priorityqueue.IsEmpty pq), pq)
  | CallSize => Some (ReturnedInt (priorityqueue.Size pq), pq)
  | CallClear => Some (Returned, priorityqueue.Clear pq)
  end.

(** A sequence of calls on one queue: the results, and the final queue. *)
Fixpoint do_calls {T : Type} `{GoZero T}
    (pq : priorityqueue.PriorityQueue T) (cs : list (call T))
  : option (list (result T) * priorityqueue.PriorityQueue T) :=
  match cs with
  | [] => Some ([], pq)
  | c :: cs' =>
      '(r, pq') ← do_call pq c;
      '(rs, pq'') ← do_calls pq' cs';
      Some (r :: rs, pq'')
  end.

(** A call of a method of a heap, and what the caller sees of it. *)
Inductive heap_call (T : Type) :=
| HeapInsert (element : T)
| HeapRemove
| HeapPeek.

Inductive heap_result (T : Type) :=
| Inserted
| Removed (element : T) (err : error)
| Peeked (element : T) (err : error).

Arguments HeapInsert {T}.
Arguments HeapRemove {T}.
Arguments HeapPeek {T}.
Arguments Inserted {T}.
Arguments Removed {T}.
Arguments Peeked {T}.

Definition heap_do_call {T : Type} `{GoZero T}
    (h : heap.Heap T) (c : heap_call T)
  : option (heap_result T * heap.Heap T) :=
  match c with
  | HeapInsert e => h' ← heap.Insert h e; Some (Inserted, h')
  | HeapRemove => '(x, err, h') ← heap.Remove h; Some (Removed x err, h')
  | HeapPeek => '(x, err, h') ← heap.Peek h; Some (Peeked x err, h')
  end.

(** A sequence of calls on one heap: the results, and the final heap. *)
Fixpoint heap_do_calls {T : Type} `{GoZero T}
    (h : heap.Heap T) (cs : list (heap_call T))
  : option (list (heap_result T) * heap.Heap T) :=
  match cs with
  | [] => Some ([], h)
  | c :: cs' =>
      '(r, h') ← heap_do_call h c;
      '(rs, h'') ← heap_do_calls h' cs';
      Some (r :: rs, h'')
  end.

(** The elements that a sequence of calls inserts, and the elements that
    its calls of [Remove] return with a nil error. *)
Definition inserted {T : Type} (cs : list (heap_call T)) : list T :=
  omap (fun c => match c with HeapInsert e => Some e | _ => None end) cs.

Definition removed {T : Type} (rs : list (heap_result T)) : list T :=
  omap (fun r => match r with Removed x None => Some x | _ => None end) rs.

(** Two comparators have the same sign on the elements that satisfy [P]. *)
Definition same_sign_on {T : Type} (P : T -> Prop) (c1 c2 : T -> T -> Z)
  : Prop :=
  forall x y, P x -> P y -> Z.sgn (c1 x y) = Z.sgn (c2 x y).

(** [for _, it := range items { pq.Enqueue(it.value, it.priority) }] *)
Fixpoint enqueue_all {T : Type}
    (pq : priorityqueue.PriorityQueue T) (items : list (T * Z))
  : option (priorityqueue.PriorityQueue T) :=
  match items with
  | [] => Some pq
  | (v, p) :: items' =>
      pq' ← priorityqueue.Enqueue pq v p; enqueue_all pq' items'
  end.

(** [for !pq.IsEmpty() { v, _ := pq.Dequeue(); out = append(out, v) }] *)
Fixpoint dequeue_all_loop {T : Type} `{GoZero T} (fuel : nat)
    (pq : priorityqueue.PriorityQueue T)
  : option (list T * priorityqueue.PriorityQueue T) :=
  match fuel with
  | O => None
  | S fuel' =>
      if priorityqueue.IsEmpty pq then Some ([], pq)
      else
        '(v, _, pq') ← priorityqueue.Dequeue pq;
        '(out, pq'') ← dequeue_all_loop fuel' pq';
        Some (v :: out, pq'')
  end.

(** Every iteration removes one element: [Size + 1] evaluations of the loop
    condition are enough. *)
Definition dequeue_all {T : Type} `{GoZero T}
    (pq : priorityqueue.PriorityQueue T)
  : option (list T * priorityqueue.PriorityQueue T) :=
  dequeue_all_loop (S (priorityqueue.Size pq)) pq.

(** The pair that [Enqueue] wraps. *)
Definition wrapped {T : Type} (item : T * Z) : priorityqueue.prioritized T :=
  {| priorityqueue.value := item.1; priorityqueue.priority := item.2 |}.

(** ** Package bitmap *)

Module bitmap.

(** [const BitmapSize uint8 = 32] *)
Definition BitmapSize : Z := 32.

(** [var ErrInvalidPosition = errors.New("invalid position")] *)
Definition ErrInvalidPosition : error := errors_New "invalid position".

(** [type BitMap struct { bits uint32 }]: [bits] is a [Z] from 0 to
    [2^32 - 1]. *)
Record BitMap := mkBitMap {
  bits : Z
}.

(** The values of a [uint32], and of a [uint8] (a position). *)
Definition is_uint32 (z : Z) : Prop := 0 <= z < 2 ^ 32.
Definition is_uint8 (z : Z) : Prop := 0 <= z < 2 ^ 8.

(** [x << s] on a [uint32] drops the bits from position 32 up; [^x] flips
    the 32 bits. The constant [1] of [1 << pos] is a [uint32] in the three
    places the package writes it. *)
Definition shl32 (x s : Z) : Z := Z.shiftl x s mod 2 ^ 32.

Definition not32 (x : Z) : Z := Z.lxor x (Z.ones 32).

Definition isOutOfRange (pos : Z) : bool :=
  bool_decide (pos >= BitmapSize).

Definition NewBitMap : BitMap := {| bits := 0 |}.

Definition On (bm : BitMap) (pos : Z) : error * BitMap :=
  if isOutOfRange pos then (ErrInvalidPosition, bm)
  else (None, {| bits := Z.lor (bits bm) (shl32 1 pos) |}).

Definition Off (bm : BitMap) (pos : Z) : error * BitMap :=
  if isOutOfRange pos then (ErrInvalidPosition, bm)
  else (None, {| bits := Z.land (bits bm) (not32 (shl32 1 pos)) |}).

Definition Toggle (bm : BitMap) (pos : Z) : error * BitMap :=
  if isOutOfRange pos then (ErrInvalidPosition, bm)
  else (None, {| bits := Z.lxor (bits bm) (shl32 1 pos) |}).

Definition Reset (bm : BitMap) : BitMap := {| bits := 0 |}.

Definition IsOn (bm : BitMap) (pos : Z) : bool * error :=
  if isOutOfRange pos then (false, ErrInvalidPosition)
  else (negb (Z.land (bits bm) (shl32 1 pos) =? 0), None).

Definition GetMap (bm : BitMap) : Z := bits bm.

End bitmap.

(** ** Package stack *)

Module stack.

Section Stack.
Context {T : Type} `{GoZero T}.

(** [type Stack[T any] struct { data []T }] *)
Record Stack := mkStack {
  data : list T
}.

Definition NewStack : Stack := {| data := [] |}.

Definition Push (s : Stack) (x : T) : Stack :=
  {| data := data s ++ [x] |}.

Definition IsEmpty (s : Stack) : bool :=
  bool_decide (length (data s) = 0%nat).

Definition Size (s : Stack) : nat := length (data s).

Definition Pop (s : Stack) : option (T * error * Stack) :=
  if IsEmpty s then
    let zero := zero_value in
    Some (zero, errors_New "stack empty", s)
  else
    let index := (length (data s) - 1)%nat in
    value ← data s !! index;
    let s := {| data := take index (data s) |} in
    Some (value, None, s).

Definition Top (s : Stack) : option (T * error * Stack) :=
  if IsEmpty s then
    let zero := zero_value in
    Some (zero, errors_New "stack empty", s)
  else
    value ← data s !! (length (data s) - 1)%nat;
    Some (value, None, s).

Definition Clear (s : Stack) : Stack := {| data := [] |}.

End Stack.

Arguments Stack T : clear implicits.

End stack.

(** ** Package queue *)

Module queue.

Section Queue.
Context {T : Type} `{GoZero T}.

(** [type Queue[T any] struct { data []T }] *)
Record Queue := mkQueue {
  data : list T
}.

Definition NewQueue : Queue := {| data := [] |}.

Definition Enqueue (q : Queue) (x : T) : Queue :=
  {| data := data q ++ [x] |}.

Definition IsEmpty (q : Queue) : bool :=
  bool_decide (length (data q) = 0%nat).

Definition Size (q : Queue) : nat := length (data q).

Definition Dequeue (q : Queue) : option (T * error * Queue) :=
  if IsEmpty q then
    let zero := zero_value in
    Some (zero, errors_New "empty queue", q)
  else
    head ← data q !! 0%nat;
    let q := {| data := drop 1 (data q) |} in
    Some (head, None, q).

Definition Front (q : Queue) : option (T * error * Queue) :=
  if IsEmpty q then
    let zero := zero_value in
    Some (zero, errors_New "empty queue", q)
  else
    head ← data q !! 0%nat;
    Some (head, None, q).

Definition Clear (q : Queue) : Queue := {| data := [] |}.

End Queue.

Arguments Queue T : clear implicits.

End queue.

(** [for _, x := range xs { s.Push(x) }] *)
Definition push_all {T : Type} (s : stack.Stack T) (xs : list T)
  : stack.Stack T :=
  foldl stack.Push s xs.

(** [for !s.IsEmpty() { x, _ := s.Pop(); out = append(out, x) }] *)
Fixpoint pop_all_loop {T : Type} `{GoZero T} (fuel : nat) (s : stack.Stack T)
  : option (list T * stack.Stack T) :=
  match fuel with
  | O => None
  | S fuel' =>
      if stack.IsEmpty s then Some ([], s)
      else
        '(x, _, s') ← stack.Pop s;
        '(out, s'') ← pop_all_loop fuel' s';
        Some (x :: out, s'')
  end.

Definition pop_all {T : Type} `{GoZero T} (s : stack.Stack T)
  : option (list T * stack.Stack T) :=
  pop_all_loop (S (stack.Size s)) s.

(** [for _, x := range xs { q.Enqueue(x) }] *)
Definition queue_enqueue_all {T : Type} (q : queue.Queue T) (xs : list T)
  : queue.Queue T :=
  foldl queue.Enqueue q xs.

(** [for !q.IsEmpty() { x, _ := q.Dequeue(); out = append(out, x) }] *)
Fixpoint queue_dequeue_all_loop {T : Type} `{GoZero T} (fuel : nat)
    (q : queue.Queue T)
  : option (list T * queue.Queue T) :=
  match fuel with
  | O => None
  | S fuel' =>
      if queue.IsEmpty q then Some ([], q)
      else
        '(x, _, q') ← queue.Dequeue q;
        '(out, q'') ← queue_dequeue_all_loop fuel' q';
        Some (x :: out, q'')
  end.

Definition queue_dequeue_all {T : Type} `{GoZero T} (q : queue.Queue T)
  : option (list T * queue.Queue T) :=
  queue_dequeue_all_loop (S (queue.Size q)) q.

(** * Properties *)

(** ** Index arithmetic *)

Lemma is_child_parent p c :
  is_child p c <-> (0 < c)%nat /\ p = ((c - 1) / 2)%nat.
Proof.
  unfold is_child. split.
  - intros [-> | ->]; split; try lia.
    + replace (2 * p + 1 - 1)%nat with (p * 2)%nat by lia.
      by rewrite Nat.div_mul.
    + replace (2 * p + 2 - 1)%nat with (1 + p * 2)%nat by lia.
      rewrite Nat.div_add by lia. reflexivity.
  - intros [Hc ->].
    pose proof (Nat.div_mod_eq (c - 1) 2) as Hd.
    pose proof (Nat.mod_upper_bound (c - 1) 2) as Hm.
    lia.
Qed.

Lemma parent_lt i : (0 < i)%nat -> ((i - 1) / 2 < i)%nat.
Proof.
  intros Hi. pose proof (Nat.div_mod_eq (i - 1) 2). lia.
Qed.

(** ** Comparators *)

Section comparators.
Context {T : Type} (cmp : T -> T -> Z) (Hcmp : TotalOrder cmp).

Lemma cmp_refl a : cmp a a = 0.
Proof. pose proof (cmp_antisym cmp Hcmp a a). lia. Qed.

Lemma cmp_ge_flip a b : ~ cmp a b < 0 -> cmp b a <= 0.
Proof. pose proof (cmp_antisym cmp Hcmp a b). lia. Qed.

Lemma cmp_gt_flip a b : cmp a b > 0 -> cmp b a <= 0.
Proof. pose proof (cmp_antisym cmp Hcmp a b). lia. Qed.

Lemma TotalOrder_flip : TotalOrder (fun a b => cmp b a).
Proof.
  split.
  - intros a b. pose proof (cmp_antisym cmp Hcmp b a). lia.
  - intros a b c Hab Hbc. exact (cmp_trans cmp Hcmp c b a Hbc Hab).
Qed.
End comparators.

(** The three constructors differ only in the comparator they store. *)
Lemma NewMinHeap_generic {T : Type} (cmp : T -> T -> Z) :
  heap.NewMinHeap cmp = heap.NewGenericHeap cmp.
Proof. reflexivity. Qed.

Lemma NewMaxHeap_generic {T : Type} (cmp : T -> T -> Z) :
  heap.NewMaxHeap cmp = heap.NewGenericHeap (fun a b => cmp b a).
Proof. reflexivity. Qed.

Lemma TotalOrder_intComparator : TotalOrder intComparator.
Proof.
  split; unfold intComparator; intros; repeat case_decide; lia.
Qed.

(** ** Slices *)

Section slices.
Context {T : Type}.
Implicit Types (es : list T) (i j k : nat).
Local Open Scope nat_scope.

Lemma swap_Some es i j x y :
  es !! i = Some x -> es !! j = Some y ->
  heap.swap es i j = Some (<[j := x]> (<[i := y]> es)).
Proof. intros Hi Hj. unfold heap.swap. by rewrite Hj, Hi. Qed.

Lemma lookup_swapped es i j x y k :
  es !! i = Some x -> es !! j = Some y ->
  <[j := x]> (<[i := y]> es) !! k =
    if decide (k = j) then Some x
    else if decide (k = i) then Some y
    else es !! k.
Proof.
  intros Hi%lookup_lt_Some Hj%lookup_lt_Some.
  destruct (decide (k = j)) as [->|Hkj].
  - rewrite list_lookup_insert_eq; [done|by rewrite length_insert].
  - rewrite list_lookup_insert_ne by done.
    destruct (decide (k = i)) as [->|Hki].
    + by rewrite list_lookup_insert_eq.
    + by rewrite list_lookup_insert_ne.
Qed.

Lemma length_swapped es i j x y :
  length (<[j := x]> (<[i := y]> es)) = length es.
Proof. by rewrite !length_insert. Qed.
End slices.

(** ** [upHeap] *)

Section upHeap.
Context {T : Type} (cmp : T -> T -> Z).
Implicit Types (es : list T) (i j k : nat).
Local Open Scope nat_scope.

Lemma upHeap_loop_S fuel es i :
  heap.upHeap_loop cmp (S fuel) es i =
    if decide (0 < i) then
      x ← es !! i;
      y ← es !! ((i - 1) / 2);
      if decide (cmp x y > 0)%Z then Some es
      else es' ← heap.swap es i ((i - 1) / 2);
           heap.upHeap_loop cmp fuel es' ((i - 1) / 2)
    else Some es.
Proof. reflexivity. Qed.

(** The loop returns: it never reads out of range and [i + 1]
    evaluations of its condition are enough. The result is the slice
    with its elements rearranged. *)
Lemma upHeap_loop_returns fuel es i :
  i < fuel -> i < length es ->
  exists es', heap.upHeap_loop cmp fuel es i = Some es' /\ es' ≡ₚ es.
Proof.
  revert es i. induction fuel as [|fuel IH]; intros es i Hfuel Hi; [lia|].
  rewrite upHeap_loop_S. case_decide as Hpos; [|by eauto].
  pose proof (parent_lt i Hpos) as Hp.
  destruct (lookup_lt_is_Some_2 es i Hi) as [x Hx].
  destruct (lookup_lt_is_Some_2 es ((i - 1) / 2)) as [y Hy]; [lia|].
  rewrite Hx, Hy. cbn [mbind option_bind]. case_decide; [by eauto|].
  rewrite (swap_Some es i _ x y Hx Hy). cbn [mbind option_bind].
  destruct (IH (<[(i - 1) / 2 := x]> (<[i := y]> es)) ((i - 1) / 2))
    as (es' & -> & Hperm); [lia|rewrite length_swapped; lia|].
  exists es'. split; [done|].
  rewrite Hperm. by apply Permutation_insert_swap.
Qed.

Context (Hcmp : TotalOrder cmp).

Lemma up_inv_swap es p i x y :
  is_child p i -> es !! i = Some x -> es !! p = Some y ->
  (cmp x y <= 0)%Z ->
  up_inv cmp es i ->
  up_inv cmp (<[p := x]> (<[i := y]> es)) p.
Proof.
  intros Hpi Hx Hy Hxy [Hedge Hgrand]. split.
  - intros q c a b Hqc Hc.
    rewrite !(lookup_swapped es i p x y) by done.
    unfold is_child in *.
    repeat case_decide; intros; simplify_eq; try lia.
    + eapply (cmp_trans cmp Hcmp _ y); [done|].
      eapply (Hedge p c); eauto.
    + eapply (Hgrand p c); eauto.
    + eapply (Hedge q c); eauto; lia.
  - intros g c a b Hgp Hpc.
    rewrite !(lookup_swapped es i p x y) by done.
    unfold is_child in *.
    repeat case_decide; intros; simplify_eq; try lia.
    + eapply (Hedge g p); eauto; lia.
    + eapply (cmp_trans cmp Hcmp _ y).
      * eapply (Hedge g p); eauto; lia.
      * eapply (Hedge p c); eauto; lia.
Qed.

Lemma upHeap_loop_heap fuel es i es' :
  up_inv cmp es i ->
  heap.upHeap_loop cmp fuel es i = Some es' ->
  heap_property cmp es'.
Proof.
  revert es i. induction fuel as [|fuel IH]; intros es i Hinv Hrun; [done|].
  rewrite upHeap_loop_S in Hrun. case_decide as Hpos.
  - destruct (es !! i) as [x|] eqn:Hx; [|done].
    destruct (es !! ((i - 1) / 2)) as [y|] eqn:Hy; [|done].
    cbn [mbind option_bind] in Hrun.
    assert (is_child ((i - 1) / 2) i) as Hpi by (by apply is_child_parent).
    case_decide as Hgt.
    + injection Hrun as <-. intros p c a b Hpc Ha Hb.
      destruct (decide (c = i)) as [->|Hne].
      * assert (p = (i - 1) / 2) as -> by (apply is_child_parent in Hpc; tauto).
        rewrite Hx in Hb. rewrite Hy in Ha. simplify_eq.
        by apply cmp_gt_flip.
      * destruct Hinv as [Hedge _]. by eapply (Hedge p c).
    + rewrite (swap_Some es i _ x y Hx Hy) in Hrun.
      cbn [mbind option_bind] in Hrun.
      eapply IH; [|exact Hrun].
      apply up_inv_swap; (done || lia).
  - injection Hrun as <-. destruct Hinv as [Hedge _].
    intros p c a b Hpc. apply (Hedge p c); [done|].
    unfold is_child in Hpc. lia.
Qed.

Lemma up_inv_append es e :
  heap_property cmp es -> up_inv cmp (es ++ [e]) (length es).
Proof.
  intros Hheap. split.
  - intros p c x y Hpc Hc Hx Hy.
    assert (c < length es).
    { apply lookup_lt_Some in Hy. rewrite length_app in Hy. simpl in Hy. lia. }
    assert (p < length es) by (unfold is_child in Hpc; lia).
    rewrite lookup_app_l in Hx, Hy by done. by eapply (Hheap p c).
  - intros g c x y _ Hc _ Hy.
    apply lookup_lt_Some in Hy. rewrite length_app in Hy. simpl in Hy.
    unfold is_child in Hc. lia.
Qed.

End upHeap.

(** ** [downHeap] *)

Section downHeap.
Context {T : Type} (cmp : T -> T -> Z).
Implicit Types (es : list T) (i j k s : nat).
Local Open Scope nat_scope.

Lemma downHeap_loop_S fuel es i :
  heap.downHeap_loop cmp (S fuel) es i =
    s ← heap.smallest_of cmp es i;
    if decide (s = i) then Some es
    else es' ← heap.swap es i s; heap.downHeap_loop cmp fuel es' s.
Proof. reflexivity. Qed.

(** [smallest] is always computed, and is [i] or the index of a child of
    [i]; under a total order the element there is not after the element
    at [i] nor after a child of [i]. *)
Lemma smallest_of_spec es i :
  exists s,
    heap.smallest_of cmp es i = Some s /\
    (s = i \/ (is_child i s /\ s < length es)) /\
    (TotalOrder cmp -> forall x, es !! i = Some x ->
       exists m, es !! s = Some m /\ (cmp m x <= 0)%Z /\
         forall c y, is_child i c -> es !! c = Some y -> (cmp m y <= 0)%Z).
Proof.
  unfold heap.smallest_of, is_child. cbv zeta.
  destruct (decide (2 * i + 1 < length es)) as [Hl|Hl].
  - destruct (lookup_lt_is_Some_2 es (2 * i + 1) Hl) as [l Hlk].
    destruct (lookup_lt_is_Some_2 es i) as [x Hxk]; [lia|].
    rewrite Hlk, Hxk. cbn [mbind option_bind].
    destruct (decide (2 * i + 2 < length es)) as [Hr|Hr].
    + destruct (lookup_lt_is_Some_2 es (2 * i + 2) Hr) as [r Hrk].
      rewrite Hrk. cbn [mbind option_bind].
      destruct (decide (cmp l x < 0)%Z) as [Hlx|Hlx].
      * rewrite Hlk. cbn [mbind option_bind].
        destruct (decide (cmp r l < 0)%Z) as [Hrl|Hrl].
        -- exists (2 * i + 2). split; [done|]. split; [right; lia|].
           intros Hcmp x' [= <-].
           exists r. split; [done|]. split.
           ++ eapply (cmp_trans cmp Hcmp _ l); lia.
           ++ intros c y [->| ->] Hy; rewrite ?Hlk, ?Hrk in Hy;
                injection Hy as <-; [lia|].
              rewrite (cmp_refl cmp Hcmp). lia.
        -- exists (2 * i + 1). split; [done|]. split; [right; lia|].
           intros Hcmp x' [= <-].
           exists l. split; [done|]. split; [lia|].
           intros c y [->| ->] Hy; rewrite ?Hlk, ?Hrk in Hy;
             injection Hy as <-.
           ++ rewrite (cmp_refl cmp Hcmp). lia.
           ++ by apply cmp_ge_flip.
      * rewrite Hxk. cbn [mbind option_bind].
        destruct (decide (cmp r x < 0)%Z) as [Hrx|Hrx].
        -- exists (2 * i + 2). split; [done|]. split; [right; lia|].
           intros Hcmp x' [= <-].
           exists r. split; [done|]. split; [lia|].
           intros c y [->| ->] Hy; rewrite ?Hlk, ?Hrk in Hy;
             injection Hy as <-.
           ++ eapply (cmp_trans cmp Hcmp _ x); [lia|by apply cmp_ge_flip].
           ++ rewrite (cmp_refl cmp Hcmp). lia.
        -- exists i. split; [done|]. split; [by left|].
           intros Hcmp x' [= <-].
           exists x. split; [done|]. split.
           ++ rewrite (cmp_refl cmp Hcmp). lia.
           ++ intros c y [->| ->] Hy; rewrite ?Hlk, ?Hrk in Hy;
                injection Hy as <-; by apply cmp_ge_flip.
    + assert (es !! (2 * i + 2) = None) as Hrk by (apply lookup_ge_None; lia).
      destruct (decide (cmp l x < 0)%Z) as [Hlx|Hlx].
      * exists (2 * i + 1). split; [done|]. split; [right; lia|].
        intros Hcmp x' [= <-].
        exists l. split; [done|]. split; [lia|].
        intros c y [->| ->] Hy; rewrite ?Hlk, ?Hrk in Hy; [|done].
        injection Hy as <-. rewrite (cmp_refl cmp Hcmp). lia.
      * exists i. split; [done|]. split; [by left|].
        intros Hcmp x' [= <-].
        exists x. split; [done|]. split.
        -- rewrite (cmp_refl cmp Hcmp). lia.
        -- intros c y [->| ->] Hy; rewrite ?Hlk, ?Hrk in Hy; [|done].
           injection Hy as <-. by apply cmp_ge_flip.
  - cbn [mbind option_bind].
    destruct (decide (2 * i + 2 < length es)) as [Hr|Hr]; [lia|].
    exists i. split; [done|]. split; [by left|].
    intros Hcmp x Hx. exists x. split; [done|]. split.
    + rewrite (cmp_refl cmp Hcmp). lia.
    + intros c y Hc Hy. apply lookup_lt_Some in Hy. lia.
Qed.

(** The loop returns: it never reads out of range, and every iteration
    but the last moves [i] to a larger index below [length es]. *)
Lemma downHeap_loop_returns fuel es i :
  length es - i < fuel ->
  exists es', heap.downHeap_loop cmp fuel es i = Some es' /\ es' ≡ₚ es.
Proof.
  revert es i. induction fuel as [|fuel IH]; intros es i Hfuel; [lia|].
  rewrite downHeap_loop_S.
  destruct (smallest_of_spec es i) as (s & -> & Hs & _).
  cbn [mbind option_bind]. case_decide as Hsi; [by eauto|].
  destruct Hs as [?|[Hchild Hlen]]; [done|].
  destruct (lookup_lt_is_Some_2 es s Hlen) as [m Hm].
  destruct (lookup_lt_is_Some_2 es i) as [x Hx];
    [unfold is_child in Hchild; lia|].
  rewrite (swap_Some es i s x m Hx Hm). cbn [mbind option_bind].
  destruct (IH (<[s := x]> (<[i := m]> es)) s) as (es' & -> & Hperm).
  { rewrite length_swapped. unfold is_child in Hchild. lia. }
  exists es'. split; [done|].
  rewrite Hperm. by apply Permutation_insert_swap.
Qed.

Context (Hcmp : TotalOrder cmp).

Lemma down_inv_swap es i s x m :
  is_child i s -> es !! i = Some x -> es !! s = Some m ->
  (cmp m x <= 0)%Z ->
  (forall c y, is_child i c -> es !! c = Some y -> (cmp m y <= 0)%Z) ->
  down_inv cmp es i ->
  down_inv cmp (<[s := x]> (<[i := m]> es)) s.
Proof.
  intros His Hx Hm Hmx Hmin [Hedge Hgrand]. split.
  - intros p c a b Hpc Hp.
    rewrite !(lookup_swapped es i s x m) by done.
    repeat case_decide; intros; simplify_eq;
      try (unfold is_child in *; lia).
    + by eapply (Hmin c).
    + by eapply (Hgrand p s).
    + by eapply (Hedge p c).
  - intros g c a b Hgs Hsc.
    rewrite !(lookup_swapped es i s x m) by done.
    repeat case_decide; intros; simplify_eq;
      try (unfold is_child in *; lia).
    by eapply (Hedge s c).
Qed.

Lemma downHeap_loop_heap fuel es i es' :
  down_inv cmp es i ->
  heap.downHeap_loop cmp fuel es i = Some es' ->
  heap_property cmp es'.
Proof.
  revert es i. induction fuel as [|fuel IH]; intros es i Hinv Hrun; [done|].
  rewrite downHeap_loop_S in Hrun.
  destruct (smallest_of_spec es i) as (s & Hs & Hcases & Hmin).
  rewrite Hs in Hrun. cbn [mbind option_bind] in Hrun.
  specialize (Hmin Hcmp). case_decide as Hsi.
  - injection Hrun as <-. subst s. intros p c a b Hpc Ha Hb.
    destruct (decide (p = i)) as [->|Hne].
    + destruct (Hmin a Ha) as (m & Hm & _ & Hchildren).
      rewrite Ha in Hm. injection Hm as <-. by eapply (Hchildren c).
    + destruct Hinv as [Hedge _]. by eapply (Hedge p c).
  - destruct Hcases as [?|[Hchild Hlen]]; [done|].
    destruct (lookup_lt_is_Some_2 es i) as [x Hx];
      [unfold is_child in Hchild; lia|].
    destruct (Hmin x Hx) as (m & Hm & Hmx & Hchildren).
    rewrite (swap_Some es i s x m Hx Hm) in Hrun.
    cbn [mbind option_bind] in Hrun.
    eapply IH; [|exact Hrun]. by apply down_inv_swap.
Qed.

End downHeap.

(** ** The methods of [Heap] *)

Section slices_of_Remove.
Context {T : Type}.
Implicit Types (es : list T).
Local Open Scope nat_scope.

(** The root, and what [Remove] leaves in the slice before [downHeap]
    runs, are the elements of the slice. *)
Lemma remove_root_Permutation es x last :
  es !! 0 = Some x -> es !! (length es - 1) = Some last ->
  x :: take (length es - 1) (<[0 := last]> es) ≡ₚ es.
Proof.
  destruct es as [|x0 rest]; [done|]. intros [= ->].
  cbn [length]. replace (S (length rest) - 1) with (length rest) by lia.
  destruct rest as [|y front _] using rev_ind; [done|].
  rewrite length_app. cbn [length].
  replace (length front + 1) with (S (length front)) by lia.
  rewrite lookup_cons_ne_0 by lia. cbn [pred].
  rewrite lookup_app_r by lia. rewrite Nat.sub_diag. intros [= ->].
  cbn [insert list_insert take].
  rewrite take_app_length.
  apply perm_skip. apply Permutation_cons_append.
Qed.

Lemma remove_root_lookup es last k a :
  0 < k ->
  take (length es - 1) (<[0 := last]> es) !! k = Some a ->
  es !! k = Some a.
Proof.
  intros Hk [Hlk _]%lookup_take_Some.
  by rewrite list_lookup_insert_ne in Hlk by lia.
Qed.
End slices_of_Remove.

Section root.
Context {T : Type} (cmp : T -> T -> Z) (Hcmp : TotalOrder cmp).
Implicit Types (es : list T).
Local Open Scope nat_scope.

(** In a slice with the heap property no element is before the root. *)
Lemma heap_root_min es r :
  heap_property cmp es -> es !! 0 = Some r ->
  forall k y, es !! k = Some y -> (cmp r y <= 0)%Z.
Proof.
  intros Hheap Hr k. induction (lt_wf k) as [k _ IH]. intros y Hy.
  destruct (decide (k = 0)) as [->|Hk].
  - rewrite Hr in Hy. injection Hy as <-. rewrite (cmp_refl cmp Hcmp). lia.
  - assert (is_child ((k - 1) / 2) k) as Hpk by (apply is_child_parent; lia).
    pose proof (parent_lt k ltac:(lia)) as Hlt.
    destruct (lookup_lt_is_Some_2 es ((k - 1) / 2)) as [z Hz].
    { apply lookup_lt_Some in Hy. lia. }
    eapply (cmp_trans cmp Hcmp _ z).
    + by eapply IH.
    + by eapply (Hheap _ k).
Qed.

Lemma heap_property_nil : heap_property cmp [].
Proof. intros i c x y _ Hx. done. Qed.
End root.

Section methods.
Context {T : Type} `{GoZero T}.
Implicit Types (h : heap.Heap T) (es : list T).
Local Open Scope nat_scope.

(** [Insert] returns, keeps the comparator and adds [e] to the elements. *)
Lemma Insert_returns h e :
  exists h',
    heap.Insert h e = Some h' /\
    heap.compare h' = heap.compare h /\
    heap.elements h' ≡ₚ heap.elements h ++ [e].
Proof.
  unfold heap.Insert, heap.upHeap. cbn [heap.elements heap.compare].
  destruct (upHeap_loop_returns (heap.compare h)
              (S (length (heap.elements h ++ [e]) - 1))
              (heap.elements h ++ [e])
              (length (heap.elements h ++ [e]) - 1))
    as (es' & -> & Hperm).
  - lia.
  - rewrite length_app. cbn [length]. lia.
  - cbn [mbind option_bind]. by eexists.
Qed.

Lemma Insert_heap_property h e h' :
  TotalOrder (heap.compare h) ->
  heap_property (heap.compare h) (heap.elements h) ->
  heap.Insert h e = Some h' ->
  heap_property (heap.compare h') (heap.elements h').
Proof.
  intros Hcmp Hheap. unfold heap.Insert, heap.upHeap.
  cbn [heap.elements heap.compare].
  destruct (heap.upHeap_loop _ _ _ _) as [es'|] eqn:Hrun; [|done].
  cbn [mbind option_bind]. intros [= <-]. cbn [heap.elements heap.compare].
  eapply upHeap_loop_heap; [done| |exact Hrun].
  rewrite length_app. cbn [length].
  replace (length (heap.elements h) + 1 - 1) with (length (heap.elements h))
    by lia.
  by apply up_inv_append.
Qed.

Lemma Remove_empty h :
  heap.Size h = 0 ->
  heap.Remove h = Some (zero_value, Some "empty heap"%string, h).
Proof. intros Hsize. unfold heap.Remove. by rewrite decide_True. Qed.

(** On a heap that is not empty [Remove] returns the root and no error,
    keeps the comparator and leaves the other elements. *)
Lemma Remove_returns h :
  heap.Size h <> 0 ->
  exists x h',
    heap.Remove h = Some (x, None, h') /\
    heap.elements h !! 0 = Some x /\
    heap.compare h' = heap.compare h /\
    heap.elements h ≡ₚ x :: heap.elements h'.
Proof.
  intros Hsize. unfold heap.Remove. rewrite decide_False by done.
  unfold heap.Size in *.
  destruct (lookup_lt_is_Some_2 (heap.elements h) 0) as [x Hx]; [lia|].
  destruct (lookup_lt_is_Some_2 (heap.elements h)
              (length (heap.elements h) - 1)) as [last Hlast]; [lia|].
  rewrite Hx, Hlast. cbn [mbind option_bind].
  unfold heap.downHeap, heap.Size. cbn [heap.elements heap.compare].
  rewrite length_insert.
  destruct (downHeap_loop_returns (heap.compare h)
    (S (length (take (length (heap.elements h) - 1)
                     (<[0 := last]> (heap.elements h)))))
    (take (length (heap.elements h) - 1) (<[0 := last]> (heap.elements h)))
    0) as (es' & -> & Hperm); [lia|].
  cbn [mbind option_bind]. eexists x, _. split; [done|].
  cbn [heap.elements heap.compare]. split; [done|]. split; [done|].
  rewrite Hperm. symmetry. by apply remove_root_Permutation.
Qed.

Lemma Remove_heap_property h r h' :
  TotalOrder (heap.compare h) ->
  heap_property (heap.compare h) (heap.elements h) ->
  heap.Remove h = Some (r, h') ->
  heap_property (heap.compare h') (heap.elements h').
Proof.
  intros Hcmp Hheap. unfold heap.Remove. case_decide as Hsize.
  { by intros [= <- <-]. }
  destruct (heap.elements h !! 0) as [x|]; [|done].
  destruct (heap.elements h !! (heap.Size h - 1)) as [last|]; [|done].
  cbn [mbind option_bind]. unfold heap.downHeap, heap.Size.
  cbn [heap.elements heap.compare]. rewrite length_insert.
  destruct (heap.downHeap_loop _ _ _ _) as [es'|] eqn:Hrun; [|done].
  cbn [mbind option_bind]. intros [= <- <-].
  cbn [heap.elements heap.compare].
  eapply downHeap_loop_heap; [done| |exact Hrun]. split.
  - intros p c a b Hpc Hp Ha Hb.
    apply remove_root_lookup in Ha; [|lia].
    apply remove_root_lookup in Hb; [|unfold is_child in Hpc; lia].
    by eapply (Hheap p c).
  - intros g c a b Hg. unfold is_child in Hg. lia.
Qed.

End methods.

(** ** Inserting a sequence and removing until empty *)

Section procedures.
Context {T : Type} `{GoZero T}.
Implicit Types (h : heap.Heap T) (xs out : list T).
Local Open Scope nat_scope.

Lemma insert_all_spec xs h :
  exists h',
    insert_all h xs = Some h' /\
    heap.compare h' = heap.compare h /\
    heap.elements h' ≡ₚ heap.elements h ++ xs /\
    (TotalOrder (heap.compare h) ->
     heap_property (heap.compare h) (heap.elements h) ->
     heap_property (heap.compare h') (heap.elements h')).
Proof.
  revert h. induction xs as [|x xs IH]; intros h.
  - exists h. by rewrite app_nil_r.
  - destruct (Insert_returns h x) as (h1 & Hins & Hc1 & Hp1).
    destruct (IH h1) as (h' & Hall & Hc & Hp & Hheap).
    exists h'. cbn [insert_all]. rewrite Hins. cbn [mbind option_bind].
    split; [done|]. split; [congruence|]. split.
    + rewrite Hp, Hp1, <- app_assoc. done.
    + intros Hcmp Hh. apply Hheap; rewrite Hc1; [done|].
      rewrite <- Hc1. by eapply Insert_heap_property.
Qed.

(** The loop that empties a heap returns, leaves the heap empty, and has
    removed the elements of the heap, none of them before an earlier one. *)
Lemma remove_all_loop_spec fuel h :
  TotalOrder (heap.compare h) ->
  heap_property (heap.compare h) (heap.elements h) ->
  heap.Size h < fuel ->
  exists out h',
    remove_all_loop fuel h = Some (out, h') /\
    heap.Size h' = 0 /\
    out ≡ₚ heap.elements h /\
    StronglySorted (fun a b => (heap.compare h a b <= 0)%Z) out.
Proof.
  revert h. induction fuel as [|fuel IH]; intros h Hcmp Hheap Hfuel; [lia|].
  cbn [remove_all_loop]. case_decide as Hsize.
  - exists [], h. split; [done|]. split; [done|]. split.
    + unfold heap.Size in Hsize. by destruct (heap.elements h).
    + constructor.
  - destruct (Remove_returns h Hsize) as (x & h1 & Hrem & Hroot & Hc1 & Hp1).
    pose proof (Remove_heap_property h _ h1 Hcmp Hheap Hrem) as Hheap1.
    destruct (IH h1) as (out & h' & Hloop & Hempty & Hperm & Hsorted).
    + by rewrite Hc1.
    + done.
    + apply Permutation_length in Hp1. cbn [length] in Hp1.
      unfold heap.Size in *. lia.
    + rewrite Hrem. cbn [mbind option_bind]. rewrite Hloop.
      cbn [mbind option_bind]. exists (x :: out), h'.
      split; [done|]. split; [done|]. split.
      * by rewrite Hperm, Hp1.
      * rewrite Hc1 in Hsorted. constructor; [done|].
        apply Forall_forall. intros y Hy.
        assert (y ∈ heap.elements h) as [k Hk]%list_elem_of_lookup.
        { rewrite Hp1, <- Hperm. by right. }
        by eapply (heap_root_min (heap.compare h) Hcmp (heap.elements h) x).
Qed.

End procedures.

(** ** Sorted extraction *)

(** C1. For a comparator that orders the elements totally and any sequence
    [xs]: inserting the elements of [xs] one by one into a heap built with
    the comparator, then calling [Remove] until the heap is empty, returns
    (every call returns, and the heap ends empty) the elements of [xs],
    each one not after any later one, so in non-decreasing order. On a heap
    built by [NewMaxHeap], which swaps the comparator's arguments, the same
    procedure returns them in non-increasing order. *)
Theorem heap_sorted_extraction {T : Type} `{GoZero T}
    (cmp : T -> T -> Z) (xs : list T) :
  TotalOrder cmp ->
  (exists h out h',
      insert_all (heap.NewMinHeap cmp) xs = Some h /\
      remove_all h = Some (out, h') /\
      heap.Size h' = 0%nat /\
      Permutation out xs /\
      StronglySorted (fun a b => cmp a b <= 0) out) /\
  (exists h out h',
      insert_all (heap.NewMaxHeap cmp) xs = Some h /\
      remove_all h = Some (out, h') /\
      heap.Size h' = 0%nat /\
      Permutation out xs /\
      StronglySorted (fun a b => cmp b a <= 0) out).
Proof.
  intros Hcmp.
  assert (forall c : T -> T -> Z, TotalOrder c ->
            exists h out h',
              insert_all (heap.NewGenericHeap c) xs = Some h /\
              remove_all h = Some (out, h') /\
              heap.Size h' = 0%nat /\
              Permutation out xs /\
              StronglySorted (fun a b => c a b <= 0) out) as Hgen.
  { intros c Hc.
    destruct (insert_all_spec xs (heap.NewGenericHeap c))
      as (h & Hins & Hch & Hperm & Hheap).
    cbn [heap.NewGenericHeap heap.compare heap.elements app] in *.
    destruct (remove_all_loop_spec (S (heap.Size h)) h)
      as (out & h' & Hrem & Hempty & Hperm' & Hsorted).
    - by rewrite Hch.
    - apply Hheap; [done|]. apply heap_property_nil.
    - lia.
    - exists h, out, h'. split; [done|]. split; [done|]. split; [done|].
      split; [by rewrite Hperm', Hperm|]. by rewrite Hch in Hsorted. }
  split.
  - exact (Hgen cmp Hcmp).
  - exact (Hgen (fun a b => cmp b a) (TotalOrder_flip cmp Hcmp)).
Qed.

Lemma heap_sorted_extraction_witness :
  TotalOrder intComparator /\
  (exists h out h',
      insert_all (heap.NewMinHeap intComparator) [44; 29; 58; 2; 29] = Some h /\
      remove_all h = Some (out, h') /\
      heap.Size h' = 0%nat /\
      Permutation out [44; 29; 58; 2; 29] /\
      StronglySorted (fun a b => intComparator a b <= 0) out).
Proof.
  split; [exact TotalOrder_intComparator|].
  exact (proj1 (heap_sorted_extraction intComparator [44; 29; 58; 2; 29]
                  TotalOrder_intComparator)).
Defined.

(** ** The heap property *)

(** C2. Under a comparator that orders the elements totally, every heap
    built from the empty heap by calls of [Insert] and [Remove] has the
    heap property when the call returns: the element at an index [i] does
    not compare greater than the element at a child index [2i+1] or [2i+2]
    of the slice. *)
Theorem heap_property_invariant {T : Type} `{GoZero T}
    (cmp : T -> T -> Z) (h : heap.Heap T) :
  TotalOrder cmp ->
  reachable cmp h ->
  heap.compare h = cmp /\
  forall i c x y,
    (c = 2 * i + 1 \/ c = 2 * i + 2)%nat ->
    heap.elements h !! i = Some x ->
    heap.elements h !! c = Some y ->
    heap.compare h x y <= 0.
Proof.
  intros Hcmp Hreach.
  change (heap.compare h = cmp /\
          heap_property (heap.compare h) (heap.elements h)).
  induction Hreach as [|h e h' _ [Hc Hheap] Hins|h r h' _ [Hc Hheap] Hrem].
  - split; [done|]. apply heap_property_nil.
  - destruct (Insert_returns h e) as (h1 & Hins1 & Hc1 & _).
    rewrite Hins in Hins1. injection Hins1 as <-.
    split; [congruence|].
    eapply Insert_heap_property; [|done|done]. by rewrite Hc.
  - split.
    + destruct (decide (heap.Size h = 0%nat)) as [Hsize|Hsize].
      * rewrite (Remove_empty h Hsize) in Hrem. by injection Hrem as <- <-.
      * destruct (Remove_returns h Hsize) as (x & h1 & Hrem1 & _ & Hc1 & _).
        rewrite Hrem in Hrem1. injection Hrem1 as -> ->. congruence.
    + eapply Remove_heap_property; [|done|done]. by rewrite Hc.
Qed.

Lemma heap_property_invariant_witness :
  let h := {| heap.elements := [3; 7]; heap.compare := intComparator |} in
  TotalOrder intComparator /\
  reachable intComparator h /\
  heap.compare h = intComparator /\
  forall i c x y,
    (c = 2 * i + 1 \/ c = 2 * i + 2)%nat ->
    heap.elements h !! i = Some x ->
    heap.elements h !! c = Some y ->
    heap.compare h x y <= 0.
Proof.
  intros h.
  assert (reachable intComparator h) as Hreach.
  { apply (reachable_Remove intComparator
             {| heap.elements := [1; 7; 3]; heap.compare := intComparator |}
             (1, None) h); [|reflexivity].
    apply (reachable_Insert intComparator
             {| heap.elements := [3; 7]; heap.compare := intComparator |}
             1); [|reflexivity].
    apply (reachable_Insert intComparator
             {| heap.elements := [7]; heap.compare := intComparator |}
             3); [|reflexivity].
    apply (reachable_Insert intComparator
             (heap.NewGenericHeap intComparator) 7); [|reflexivity].
    apply reachable_new. }
  split; [exact TotalOrder_intComparator|]. split; [exact Hreach|].
  exact (heap_property_invariant intComparator h
           TotalOrder_intComparator Hreach).
Defined.

(** ** The steps of the two loops *)






(** ** Calls on a priority queue *)

Section calls.
Context {T : Type} `{GoZero T}.
Implicit Types (pq : priorityqueue.PriorityQueue T).

Lemma Peek_returns (A : Type) `{GoZero A} (h : heap.Heap A) :
  exists x err, heap.Peek h = Some (x, err, h).
Proof.
  unfold heap.Peek. case_decide as Hsize; [by eauto|].
  destruct (lookup_lt_is_Some_2 (heap.elements h) 0) as [x Hx].
  { unfold heap.Size in Hsize. lia. }
  rewrite Hx. by eauto.
Qed.

(** Every call returns, and leaves a queue with the same comparator. *)
Lemma do_call_returns pq c :
  exists r pq',
    do_call pq c = Some (r, pq') /\
    heap.compare (priorityqueue.heap pq') =
      heap.compare (priorityqueue.heap pq).
Proof.
  destruct pq as [h]. destruct c as [v p| | | | |]; cbn [do_call].
  - unfold priorityqueue.Enqueue. cbn [priorityqueue.heap].
    destruct (Insert_returns h {| priorityqueue.value := v;
                                  priorityqueue.priority := p |})
      as (h' & -> & Hc & _).
    cbn [mbind option_bind]. by eauto.
  - unfold priorityqueue.Dequeue. cbn [priorityqueue.heap].
    destruct (decide (heap.Size h = 0%nat)) as [Hsize|Hsize].
    + rewrite (Remove_empty h Hsize). cbn. by eauto.
    + destruct (Remove_returns h Hsize) as (x & h' & -> & _ & Hc & _).
      cbn. by eauto.
  - unfold priorityqueue.Peek. cbn [priorityqueue.heap].
    destruct (Peek_returns _ h) as (x & err & ->).
    cbn. destruct err; cbn; by eauto.
  - by eauto.
  - by eauto.
  - by eauto.
Qed.

Lemma do_calls_returns cs pq :
  exists rs pq',
    do_calls pq cs = Some (rs, pq') /\
    heap.compare (priorityqueue.heap pq') =
      heap.compare (priorityqueue.heap pq).
Proof.
  revert pq. induction cs as [|c cs IH]; intros pq; [by eauto|].
  destruct (do_call_returns pq c) as (r & pq1 & Hcall & Hc1).
  destruct (IH pq1) as (rs & pq' & Hcalls & Hc).
  cbn [do_calls]. rewrite Hcall. cbn [mbind option_bind].
  rewrite Hcalls. cbn [mbind option_bind].
  eexists _, _. split; [done|]. congruence.
Qed.
End calls.

(** ** The scenarios of the tests *)

(** C4. Inserting 44, 29, 58, 2, 98, 11, 65, 3, 68, 99 one at a time into
    a new min-heap of integers gives, after each insertion, the layouts of
    the package's test, as [Elements] returns them. *)
Theorem min_heap_insertion_layouts :
  insert_trace (heap.NewMinHeap intComparator)
    [44; 29; 58; 2; 98; 11; 65; 3; 68; 99] =
  Some [ [44];
         [29; 44];
         [29; 44; 58];
         [2; 29; 58; 44];
         [2; 29; 58; 44; 98];
         [2; 29; 11; 44; 98; 58];
         [2; 29; 11; 44; 98; 58; 65];
         [2; 3; 11; 29; 98; 58; 65; 44];
         [2; 3; 11; 29; 98; 58; 65; 44; 68];
         [2; 3; 11; 29; 98; 58; 65; 44; 68; 99] ].
Proof. vm_compute. reflexivity. Qed.

(** C5. On a min-priority queue, on a platform of either width of [int],
    after [Enqueue("low",10)], [Enqueue("medium",5)] and
    [Enqueue("high",1)], three calls of [Dequeue] return "high", "medium"
    and "low" with a nil error, and a fourth returns the error of the
    empty heap; the queue is empty at the end. *)
Theorem min_priority_queue_scenario (w : int_width) :
  exists pq,
    do_calls (priorityqueue.NewMinPriorityQueue w)
      [CallEnqueue "low"%string 10; CallEnqueue "medium"%string 5;
       CallEnqueue "high"%string 1;
       CallDequeue; CallDequeue; CallDequeue; CallDequeue] =
    Some ([Returned; Returned; Returned;
           ReturnedValue "high"%string None;
           ReturnedValue "medium"%string None;
           ReturnedValue "low"%string None;
           ReturnedValue zero_value (errors_New "empty heap")], pq) /\
    priorityqueue.Size pq = 0%nat.
Proof.
  set (cs := [CallEnqueue "low"%string 10; CallEnqueue "medium"%string 5;
              CallEnqueue "high"%string 1;
              CallDequeue; CallDequeue; CallDequeue; CallDequeue]).
  destruct (do_calls_returns cs (priorityqueue.NewMinPriorityQueue w))
    as (rs & pq & Hcalls & _).
  assert (fst <$> do_calls (priorityqueue.NewMinPriorityQueue w) cs =
          Some [Returned; Returned; Returned;
                ReturnedValue "high"%string None;
                ReturnedValue "medium"%string None;
                ReturnedValue "low"%string None;
                ReturnedValue zero_value (errors_New "empty heap")])
    as Hresults by (destruct w; vm_compute; reflexivity).
  assert (priorityqueue.Size ∘ snd <$>
            do_calls (priorityqueue.NewMinPriorityQueue w) cs = Some 0%nat)
    as Hsize by (destruct w; vm_compute; reflexivity).
  rewrite Hcalls in Hresults, Hsize. cbn in Hresults, Hsize.
  injection Hresults as ->. injection Hsize as Hsize.
  exists pq. by split.
Qed.

(** ** The empty heap and the empty queue *)

(** C6. On a heap of size 0 (new, or emptied by [Remove]), [Remove] and
    [Peek] both return the zero value with the error "empty heap", not an
    element, and leave the heap as it was. *)
Theorem empty_heap_Remove_Peek {T : Type} `{GoZero T} (h : heap.Heap T) :
  heap.Size h = 0%nat ->
  heap.Remove h = Some (zero_value, errors_New "empty heap", h) /\
  heap.Peek h = Some (zero_value, errors_New "empty heap", h).
Proof.
  intros Hsize. unfold heap.Remove, heap.Peek.
  by rewrite !decide_True by done.
Qed.

Lemma empty_heap_Remove_Peek_witness :
  let h := {| heap.elements := []; heap.compare := intComparator |} in
  (exists h0, heap.Insert (heap.NewMinHeap intComparator) 7 = Some h0 /\
              heap.Remove h0 = Some (7, None, h)) /\
  heap.Size h = 0%nat /\
  heap.Remove h = Some (zero_value, errors_New "empty heap", h) /\
  heap.Peek h = Some (zero_value, errors_New "empty heap", h).
Proof.
  cbv zeta. split.
  { eexists. split; reflexivity. }
  split; [reflexivity|].
  apply (empty_heap_Remove_Peek
           {| heap.elements := []; heap.compare := intComparator |}).
  reflexivity.
Defined.



(** ** [Clear] *)

(** C8. [Clear] leaves any queue with size 0 and a heap with the
    comparator of the heap it replaces: the queue that [NewGenericHeap]
    gives for that comparator. So on a queue that calls have made from a
    new min-queue (every call returns), [Clear] gives the new min-queue
    again, and every sequence of calls after it has the results and the
    final queue it has on a new min-queue; the same for a max-queue. *)
Theorem Clear_preserves_orientation {T : Type} `{GoZero T}
    (pq : priorityqueue.PriorityQueue T) (w : int_width)
    (before : list (call T)) :
  (priorityqueue.Size (priorityqueue.Clear pq) = 0%nat /\
   heap.Comparator (priorityqueue.heap (priorityqueue.Clear pq)) =
     heap.Comparator (priorityqueue.heap pq) /\
   priorityqueue.Clear pq =
     {| priorityqueue.heap :=
          heap.NewGenericHeap (heap.Comparator (priorityqueue.heap pq)) |}) /\
  (exists rs q,
      do_calls (priorityqueue.NewMinPriorityQueue w) before = Some (rs, q) /\
      priorityqueue.Clear q = priorityqueue.NewMinPriorityQueue w /\
      forall after,
        do_calls (priorityqueue.Clear q) after =
        do_calls (priorityqueue.NewMinPriorityQueue w) after) /\
  (exists rs q,
      do_calls (priorityqueue.NewMaxPriorityQueue w) before = Some (rs, q) /\
      priorityqueue.Clear q = priorityqueue.NewMaxPriorityQueue w /\
      forall after,
        do_calls (priorityqueue.Clear q) after =
        do_calls (priorityqueue.NewMaxPriorityQueue w) after).
Proof.
  split; [by repeat split|].
  assert (forall q0 : priorityqueue.PriorityQueue T,
            heap.elements (priorityqueue.heap q0) = [] ->
            exists rs q,
              do_calls q0 before = Some (rs, q) /\
              priorityqueue.Clear q = q0 /\
              forall after,
                do_calls (priorityqueue.Clear q) after = do_calls q0 after)
    as Hgen.
  { intros q0 Hnil.
    destruct (do_calls_returns before q0) as (rs & q & Hcalls & Hc).
    assert (priorityqueue.Clear q = q0) as Hclear.
    { unfold priorityqueue.Clear, heap.NewGenericHeap, heap.Comparator.
      rewrite Hc. destruct q0 as [[es0 c0]]. cbn in *. by subst es0. }
    exists rs, q. split; [done|]. split; [done|].
    intros after. by rewrite Hclear. }
  split; apply Hgen; reflexivity.
Qed.

(** ** The comparators of the priority queue *)

Lemma wrap_sgn (w : int_width) (z : Z) :
  min_int w - max_int w <= z <= max_int w - min_int w ->
  (Z.sgn (wrap w z) = Z.sgn z <-> in_int w z).
Proof.
  unfold wrap, in_int, min_int, max_int.
  destruct w; cbn [bits];
    [change (2 ^ (32 - 1)) with 2147483648; change (2 ^ 32) with 4294967296
    |change (2 ^ (64 - 1)) with 9223372036854775808;
     change (2 ^ 64) with 18446744073709551616];
    intros Hz; split; intros Hs; Z.div_mod_to_equations; lia.
Qed.

(** C10. The comparator of a min-queue is the wrapped difference
    [a.priority - b.priority], that of a max-queue the wrapped difference
    [b.priority - a.priority]. There are priorities [p < q] of the width
    of [int] for which the min comparator is positive. For priorities of
    that width, the sign of the min comparator is the sign of the true
    difference exactly when the difference is itself an [int], that is
    when the subtraction does not overflow. *)
Theorem priority_comparator_overflow {T : Type} `{GoZero T}
    (w : int_width) (a b : priorityqueue.prioritized T) :
  in_int w (priorityqueue.priority a) ->
  in_int w (priorityqueue.priority b) ->
  let cmin :=
    heap.Comparator (priorityqueue.heap (priorityqueue.NewMinPriorityQueue w)) in
  let cmax :=
    heap.Comparator (priorityqueue.heap (priorityqueue.NewMaxPriorityQueue w)) in
  cmin a b = wrap w (priorityqueue.priority a - priorityqueue.priority b) /\
  cmax a b = wrap w (priorityqueue.priority b - priorityqueue.priority a) /\
  (exists p q : priorityqueue.prioritized T,
      in_int w (priorityqueue.priority p) /\
      in_int w (priorityqueue.priority q) /\
      priorityqueue.priority p < priorityqueue.priority q /\
      cmin p q > 0 /\ cmax q p > 0) /\
  (Z.sgn (cmin a b) =
     Z.sgn (priorityqueue.priority a - priorityqueue.priority b) <->
   in_int w (priorityqueue.priority a - priorityqueue.priority b)).
Proof.
  intros Ha Hb cmin cmax. split; [reflexivity|]. split; [reflexivity|]. split.
  - exists {| priorityqueue.value := zero_value;
              priorityqueue.priority := min_int w |},
           {| priorityqueue.value := zero_value;
              priorityqueue.priority := 1 |}.
    destruct w; vm_compute; repeat split; congruence.
  - apply wrap_sgn. unfold in_int in *. lia.
Qed.

Lemma priority_comparator_overflow_witness :
  let a := {| priorityqueue.value := "urgent"%string;
              priorityqueue.priority := -9223372036854775808 |} in
  let b := {| priorityqueue.value := "later"%string;
              priorityqueue.priority := 1 |} in
  let cmin :=
    heap.Comparator
      (priorityqueue.heap (priorityqueue.NewMinPriorityQueue W64)) in
  let cmax :=
    heap.Comparator
      (priorityqueue.heap (priorityqueue.NewMaxPriorityQueue W64)) in
  in_int W64 (priorityqueue.priority a) /\
  in_int W64 (priorityqueue.priority b) /\
  cmin a b = wrap W64 (priorityqueue.priority a - priorityqueue.priority b) /\
  cmax a b = wrap W64 (priorityqueue.priority b - priorityqueue.priority a) /\
  (exists p q : priorityqueue.prioritized string,
      in_int W64 (priorityqueue.priority p) /\
      in_int W64 (priorityqueue.priority q) /\
      priorityqueue.priority p < priorityqueue.priority q /\
      cmin p q > 0 /\ cmax q p > 0) /\
  (Z.sgn (cmin a b) =
     Z.sgn (priorityqueue.priority a - priorityqueue.priority b) <->
   in_int W64 (priorityqueue.priority a - priorityqueue.priority b)).
Proof.
  cbv zeta.
  assert (in_int W64 (-9223372036854775808)) as Ha
    by (vm_compute; split; congruence).
  assert (in_int W64 1) as Hb by (vm_compute; split; congruence).
  split; [exact Ha|]. split; [exact Hb|].
  exact (priority_comparator_overflow W64
           {| priorityqueue.value := "urgent"%string;
              priorityqueue.priority := -9223372036854775808 |}
           {| priorityqueue.value := "later"%string;
              priorityqueue.priority := 1 |} Ha Hb).
Defined.

(** * Further properties of the two packages *)

(** ** Sequences of calls on a heap *)

Section heap_calls.
Context {T : Type} `{GoZero T}.
Implicit Types (h : heap.Heap T) (es : list T).
Local Open Scope nat_scope.

Lemma Peek_root h x :
  heap.elements h !! 0 = Some x -> heap.Peek h = Some (x, None, h).
Proof.
  intros Hx. unfold heap.Peek. rewrite decide_False.
  - by rewrite Hx.
  - apply lookup_lt_Some in Hx. unfold heap.Size. lia.
Qed.

(** A call returns, keeps the comparator, and neither loses nor makes up
    an element. *)
Lemma heap_do_call_conserves h c :
  exists r h',
    heap_do_call h c = Some (r, h') /\
    heap.compare h' = heap.compare h /\
    heap.elements h ++ inserted [c] ≡ₚ removed [r] ++ heap.elements h'.
Proof.
  destruct c as [e| |]; cbn [heap_do_call].
  - destruct (Insert_returns h e) as (h' & -> & Hc & Hp).
    eexists _, h'. split; [done|]. split; [done|]. by rewrite Hp.
  - destruct (decide (heap.Size h = 0)) as [Hsize|Hsize].
    + rewrite (Remove_empty h Hsize). eexists _, h. split; [done|].
      split; [done|]. cbn. by rewrite app_nil_r.
    + destruct (Remove_returns h Hsize) as (x & h' & -> & _ & Hc & Hp).
      eexists _, h'. split; [done|]. split; [done|].
      cbn. by rewrite app_nil_r.
  - destruct (Peek_returns _ h) as (x & err & ->).
    eexists _, h. split; [done|]. split; [done|]. cbn. by rewrite app_nil_r.
Qed.

Lemma heap_do_calls_conserves cs h :
  exists rs h',
    heap_do_calls h cs = Some (rs, h') /\
    heap.compare h' = heap.compare h /\
    heap.elements h ++ inserted cs ≡ₚ removed rs ++ heap.elements h'.
Proof.
  revert h. induction cs as [|c cs IH]; intros h.
  - exists [], h. split; [done|]. split; [done|]. cbn. by rewrite app_nil_r.
  - destruct (heap_do_call_conserves h c) as (r & h1 & Hcall & Hc1 & Hp1).
    destruct (IH h1) as (rs & h' & Hcalls & Hc & Hp).
    exists (r :: rs), h'. cbn [heap_do_calls]. rewrite Hcall.
    cbn [mbind option_bind]. rewrite Hcalls. cbn [mbind option_bind].
    split; [done|]. split; [congruence|].
    assert (inserted (c :: cs) = inserted [c] ++ inserted cs) as ->
      by (unfold inserted; by rewrite <- omap_app).
    assert (removed (r :: rs) = removed [r] ++ removed rs) as ->
      by (unfold removed; by rewrite <- omap_app).
    rewrite app_assoc, Hp1, <- !app_assoc.
    by apply Permutation_app_head.
Qed.

(** The heaps that calls make from the empty heap have the heap property. *)
Lemma reachable_heap_property (cmp : T -> T -> Z) h :
  TotalOrder cmp -> reachable cmp h ->
  heap.compare h = cmp /\ heap_property cmp (heap.elements h).
Proof.
  intros Hcmp Hreach.
  induction Hreach as [|h e h' _ [Hc Hheap] Hins|h r h' _ [Hc Hheap] Hrem].
  - split; [done|]. apply heap_property_nil.
  - subst cmp.
    destruct (Insert_returns h e) as (h1 & Hins1 & Hc1 & _).
    rewrite Hins in Hins1. injection Hins1 as <-.
    split; [done|]. rewrite <- Hc1. by eapply Insert_heap_property.
  - subst cmp.
    assert (heap.compare h' = heap.compare h) as Hc'.
    { destruct (decide (heap.Size h = 0)) as [Hsize|Hsize].
      - rewrite (Remove_empty h Hsize) in Hrem. by injection Hrem as <- <-.
      - destruct (Remove_returns h Hsize) as (x & h1 & Hrem1 & _ & Hc1 & _).
        rewrite Hrem in Hrem1. by injection Hrem1 as -> ->. }
    split; [done|]. rewrite <- Hc'. by eapply Remove_heap_property.
Qed.

(** On a heap with the heap property that is not empty, [Peek] and [Remove]
    return the same element, no other element is before it, and [Remove]
    leaves the other elements. *)
Lemma root_is_minimum h :
  TotalOrder (heap.compare h) ->
  heap_property (heap.compare h) (heap.elements h) ->
  heap.Size h <> 0 ->
  exists x h',
    heap.Peek h = Some (x, None, h) /\
    heap.Remove h = Some (x, None, h') /\
    heap.compare h' = heap.compare h /\
    heap.elements h ≡ₚ x :: heap.elements h' /\
    forall y, y ∈ heap.elements h -> (heap.compare h x y <= 0)%Z.
Proof.
  intros Hcmp Hheap Hsize.
  destruct (Remove_returns h Hsize) as (x & h' & Hrem & Hroot & Hc & Hp).
  exists x, h'. split; [by apply Peek_root|]. split; [done|].
  split; [done|]. split; [done|].
  intros y [k Hk]%list_elem_of_lookup.
  by eapply (heap_root_min (heap.compare h) Hcmp (heap.elements h) x).
Qed.

End heap_calls.

(** X1. Whatever calls of [Insert], [Remove] and [Peek] are made on a
    heap, with whatever comparator, every call returns and no element is
    lost or made up: the elements the heap had, with the elements
    inserted, are the elements that [Remove] returned with a nil error,
    with the elements the heap has at the end. So [Size] at the end is
    [Size] at the start plus the number of calls of [Insert] minus the
    number of calls of [Remove] that returned an element. *)
Theorem heap_calls_conserve_elements {T : Type} `{GoZero T}
    (h : heap.Heap T) (cs : list (heap_call T)) :
  exists rs h',
    heap_do_calls h cs = Some (rs, h') /\
    heap.Comparator h' = heap.Comparator h /\
    Permutation (heap.elements h ++ inserted cs)
                (removed rs ++ heap.elements h') /\
    (heap.Size h' + length (removed rs) =
     heap.Size h + length (inserted cs))%nat.
Proof.
  destruct (heap_do_calls_conserves cs h) as (rs & h' & Hcalls & Hc & Hp).
  exists rs, h'. split; [done|]. split; [done|]. split; [done|].
  apply Permutation_length in Hp. rewrite !length_app in Hp.
  unfold heap.Size. lia.
Qed.

(** X2. On a heap that calls of [Insert] and [Remove] have made from the
    empty heap, under a comparator that orders the elements totally, and
    that is not empty, [Peek] returns an element of the heap that no
    element of the heap is before, with a nil error, and leaves the heap
    as it is (so a second [Peek] returns the same). *)
Theorem Peek_returns_minimum {T : Type} `{GoZero T}
    (cmp : T -> T -> Z) (h : heap.Heap T) :
  TotalOrder cmp ->
  reachable cmp h ->
  heap.Size h <> 0%nat ->
  exists x,
    heap.Peek h = Some (x, None, h) /\
    In x (heap.elements h) /\
    forall y, In y (heap.elements h) -> cmp x y <= 0.
Proof.
  intros Hcmp Hreach Hsize.
  destruct (reachable_heap_property cmp h Hcmp Hreach) as [Hc Hheap].
  rewrite <- Hc in Hcmp, Hheap.
  destruct (root_is_minimum h Hcmp Hheap Hsize)
    as (x & h' & Hpeek & _ & _ & Hp & Hmin).
  exists x. split; [done|]. split.
  - apply list_elem_of_In. rewrite Hp. by left.
  - intros y Hy%list_elem_of_In. rewrite <- Hc. by apply Hmin.
Qed.

Lemma Peek_returns_minimum_witness :
  let h := {| heap.elements := [3; 7]; heap.compare := intComparator |} in
  TotalOrder intComparator /\
  reachable intComparator h /\
  heap.Size h <> 0%nat /\
  exists x,
    heap.Peek h = Some (x, None, h) /\
    In x (heap.elements h) /\
    forall y, In y (heap.elements h) -> intComparator x y <= 0.
Proof.
  intros h.
  assert (reachable intComparator h) as Hreach.
  { apply (reachable_Insert intComparator
             {| heap.elements := [7]; heap.compare := intComparator |}
             3); [|reflexivity].
    apply (reachable_Insert intComparator
             (heap.NewGenericHeap intComparator) 7); [|reflexivity].
    apply reachable_new. }
  assert (heap.Size h <> 0%nat) as Hsize by (cbn; lia).
  split; [exact TotalOrder_intComparator|]. split; [exact Hreach|].
  split; [exact Hsize|].
  exact (Peek_returns_minimum intComparator h
           TotalOrder_intComparator Hreach Hsize).
Defined.

(** X3. On such a heap [Remove] returns, with a nil error, the element
    that [Peek] returns, which no element of the heap is before; it keeps
    the comparator and leaves the other elements, one fewer. *)
Theorem Remove_returns_minimum {T : Type} `{GoZero T}
    (cmp : T -> T -> Z) (h : heap.Heap T) :
  TotalOrder cmp ->
  reachable cmp h ->
  heap.Size h <> 0%nat ->
  exists x h',
    heap.Remove h = Some (x, None, h') /\
    heap.Peek h = Some (x, None, h) /\
    (forall y, In y (heap.elements h) -> cmp x y <= 0) /\
    Permutation (heap.elements h) (x :: heap.elements h') /\
    S (heap.Size h') = heap.Size h /\
    reachable cmp h'.
Proof.
  intros Hcmp Hreach Hsize.
  destruct (reachable_heap_property cmp h Hcmp Hreach) as [Hc Hheap].
  rewrite <- Hc in Hcmp, Hheap.
  destruct (root_is_minimum h Hcmp Hheap Hsize)
    as (x & h' & Hpeek & Hrem & _ & Hp & Hmin).
  exists x, h'. split; [done|]. split; [done|]. split.
  - intros y Hy%list_elem_of_In. rewrite <- Hc. by apply Hmin.
  - split; [done|]. split.
    + apply Permutation_length in Hp. unfold heap.Size. by rewrite Hp.
    + by eapply reachable_Remove.
Qed.

Lemma Remove_returns_minimum_witness :
  let h := {| heap.elements := [3; 7]; heap.compare := intComparator |} in
  TotalOrder intComparator /\
  reachable intComparator h /\
  heap.Size h <> 0%nat /\
  exists x h',
    heap.Remove h = Some (x, None, h') /\
    heap.Peek h = Some (x, None, h) /\
    (forall y, In y (heap.elements h) -> intComparator x y <= 0) /\
    Permutation (heap.elements h) (x :: heap.elements h') /\
    S (heap.Size h') = heap.Size h /\
    reachable intComparator h'.
Proof.
  intros h.
  assert (reachable intComparator h) as Hreach.
  { apply (reachable_Insert intComparator
             {| heap.elements := [7]; heap.compare := intComparator |}
             3); [|reflexivity].
    apply (reachable_Insert intComparator
             (heap.NewGenericHeap intComparator) 7); [|reflexivity].
    apply reachable_new. }
  assert (heap.Size h <> 0%nat) as Hsize by (cbn; lia).
  split; [exact TotalOrder_intComparator|]. split; [exact Hreach|].
  split; [exact Hsize|].
  exact (Remove_returns_minimum intComparator h
           TotalOrder_intComparator Hreach Hsize).
Defined.

(** X4. On a heap that calls of [Insert] and [Remove] have made from
    [NewMaxHeap(cmp)], for a comparator [cmp] that orders the elements
    totally, and that is not empty, [Peek] and [Remove] return an element
    that no element of the heap is after under [cmp]: a maximum. *)
Theorem max_heap_root_is_maximum {T : Type} `{GoZero T}
    (cmp : T -> T -> Z) (h : heap.Heap T) :
  TotalOrder cmp ->
  reachable (heap.Comparator (heap.NewMaxHeap cmp)) h ->
  heap.Size h <> 0%nat ->
  exists x h',
    heap.Peek h = Some (x, None, h) /\
    heap.Remove h = Some (x, None, h') /\
    In x (heap.elements h) /\
    forall y, In y (heap.elements h) -> cmp y x <= 0.
Proof.
  intros Hcmp Hreach Hsize.
  pose proof (TotalOrder_flip cmp Hcmp) as Hflip.
  destruct (reachable_heap_property _ h Hflip Hreach) as [Hc Hheap].
  rewrite <- Hc in Hflip, Hheap.
  destruct (root_is_minimum h Hflip Hheap Hsize)
    as (x & h' & Hpeek & Hrem & _ & Hp & Hmin).
  exists x, h'. split; [done|]. split; [done|]. split.
  - apply list_elem_of_In. rewrite Hp. by left.
  - intros y Hy%list_elem_of_In. specialize (Hmin y Hy).
    by rewrite Hc in Hmin.
Qed.

Lemma max_heap_root_is_maximum_witness :
  let h := {| heap.elements := [7; 3];
              heap.compare := fun a b => intComparator b a |} in
  TotalOrder intComparator /\
  reachable (heap.Comparator (heap.NewMaxHeap intComparator)) h /\
  heap.Size h <> 0%nat /\
  exists x h',
    heap.Peek h = Some (x, None, h) /\
    heap.Remove h = Some (x, None, h') /\
    In x (heap.elements h) /\
    forall y, In y (heap.elements h) -> intComparator y x <= 0.
Proof.
  intros h.
  assert (reachable (heap.Comparator (heap.NewMaxHeap intComparator)) h)
    as Hreach.
  { apply (reachable_Insert _
             {| heap.elements := [3];
                heap.compare := fun a b => intComparator b a |}
             7); [|reflexivity].
    apply (reachable_Insert _ (heap.NewMaxHeap intComparator) 3);
      [|reflexivity].
    apply reachable_new. }
  assert (heap.Size h <> 0%nat) as Hsize by (cbn; lia).
  split; [exact TotalOrder_intComparator|]. split; [exact Hreach|].
  split; [exact Hsize|].
  exact (max_heap_root_is_maximum intComparator h
           TotalOrder_intComparator Hreach Hsize).
Defined.

(** ** The comparator is used only through its sign *)

Section same_sign.
Context {T : Type} (P : T -> Prop) (c1 c2 : T -> T -> Z).
Context (Hsame : same_sign_on P c1 c2).
Implicit Types (es : list T) (i : nat).
Local Open Scope nat_scope.

Lemma upHeap_loop_same_sign fuel es i :
  Forall P es ->
  heap.upHeap_loop c1 fuel es i = heap.upHeap_loop c2 fuel es i.
Proof.
  revert es i. induction fuel as [|fuel IH]; intros es i HP; [done|].
  rewrite !upHeap_loop_S. case_decide; [|done].
  destruct (es !! i) as [x|] eqn:Hx; [|done].
  destruct (es !! ((i - 1) / 2)) as [y|] eqn:Hy; [|done].
  cbn [mbind option_bind].
  pose proof (Hsame x y (Forall_lookup_1 _ _ _ _ HP Hx)
                (Forall_lookup_1 _ _ _ _ HP Hy)) as Hsgn.
  destruct (decide (c1 x y > 0)%Z), (decide (c2 x y > 0)%Z);
    try lia; [done|].
  rewrite (swap_Some es i _ x y Hx Hy). cbn [mbind option_bind].
  apply IH. by rewrite Permutation_insert_swap.
Qed.

Lemma smallest_of_same_sign es i :
  Forall P es -> heap.smallest_of c1 es i = heap.smallest_of c2 es i.
Proof.
  intros HP. unfold heap.smallest_of. cbv zeta.
  assert (forall k j a b, es !! k = Some a -> es !! j = Some b ->
            (if decide (c1 a b < 0)%Z then k else j) =
            (if decide (c2 a b < 0)%Z then k else j)) as Hpick.
  { intros k j a b Ha Hb.
    pose proof (Hsame a b (Forall_lookup_1 _ _ _ _ HP Ha)
                  (Forall_lookup_1 _ _ _ _ HP Hb)) as Hsgn.
    destruct (decide (c1 a b < 0)%Z), (decide (c2 a b < 0)%Z); lia || done. }
  destruct (decide (2 * i + 1 < length es)).
  - destruct (es !! (2 * i + 1)) as [el|] eqn:Hl; [|done].
    destruct (es !! i) as [x|] eqn:Hx; [|done].
    cbn [mbind option_bind]. rewrite <- (Hpick _ i el x Hl Hx).
    destruct (decide (2 * i + 2 < length es)); [|done].
    destruct (es !! (2 * i + 2)) as [er|] eqn:Hr; [|done].
    cbn [mbind option_bind].
    destruct (decide (c1 el x < 0)%Z).
    + rewrite Hl. cbn [mbind option_bind]. by rewrite (Hpick _ _ er el Hr Hl).
    + rewrite Hx. cbn [mbind option_bind]. by rewrite (Hpick _ _ er x Hr Hx).
  - cbn [mbind option_bind].
    destruct (decide (2 * i + 2 < length es)); [|done].
    destruct (es !! (2 * i + 2)) as [er|] eqn:Hr; [|done].
    destruct (es !! i) as [x|] eqn:Hx; [|done].
    cbn [mbind option_bind]. by rewrite (Hpick _ _ er x Hr Hx).
Qed.

Lemma downHeap_loop_same_sign fuel es i :
  Forall P es ->
  heap.downHeap_loop c1 fuel es i = heap.downHeap_loop c2 fuel es i.
Proof.
  revert es i. induction fuel as [|fuel IH]; intros es i HP; [done|].
  rewrite !downHeap_loop_S, (smallest_of_same_sign es i HP).
  destruct (heap.smallest_of c2 es i) as [s|]; [|done].
  cbn [mbind option_bind]. case_decide; [done|].
  destruct (heap.swap es i s) as [es'|] eqn:Hswap; [|done].
  cbn [mbind option_bind]. apply IH.
  unfold heap.swap in Hswap.
  destruct (es !! s) as [m|] eqn:Hm; [|done].
  destruct (es !! i) as [x|] eqn:Hx; [|done].
  injection Hswap as <-. by rewrite Permutation_insert_swap.
Qed.

Context `{GoZero T}.

(** [Insert] on two heaps with the same elements and comparators of the
    same sign leaves the same elements. *)
Lemma Insert_same_sign es e :
  Forall P es -> P e ->
  exists es',
    heap.Insert {| heap.elements := es; heap.compare := c1 |} e =
      Some {| heap.elements := es'; heap.compare := c1 |} /\
    heap.Insert {| heap.elements := es; heap.compare := c2 |} e =
      Some {| heap.elements := es'; heap.compare := c2 |} /\
    es' ≡ₚ es ++ [e].
Proof.
  intros HP He. unfold heap.Insert, heap.upHeap.
  cbn [heap.elements heap.compare].
  assert (Forall P (es ++ [e])) as HP'.
  { apply Forall_app. split; [done|]. by apply Forall_singleton. }
  rewrite <- (upHeap_loop_same_sign _ _ _ HP').
  destruct (upHeap_loop_returns c1 (S (length (es ++ [e]) - 1)) (es ++ [e])
              (length (es ++ [e]) - 1)) as (es' & -> & Hperm).
  - lia.
  - rewrite length_app. cbn [length]. lia.
  - by exists es'.
Qed.

(** So does [Remove], and it returns the same element. *)
Lemma Remove_same_sign es :
  Forall P es -> es <> [] ->
  exists x es',
    heap.Remove {| heap.elements := es; heap.compare := c1 |} =
      Some (x, None, {| heap.elements := es'; heap.compare := c1 |}) /\
    heap.Remove {| heap.elements := es; heap.compare := c2 |} =
      Some (x, None, {| heap.elements := es'; heap.compare := c2 |}) /\
    es ≡ₚ x :: es'.
Proof.
  intros HP Hne. unfold heap.Remove, heap.Size.
  cbn [heap.elements heap.compare].
  rewrite !decide_False by (by destruct es).
  destruct (lookup_lt_is_Some_2 es 0) as [x Hx]; [destruct es; cbn; [done|lia]|].
  destruct (lookup_lt_is_Some_2 es (length es - 1)) as [last Hlast].
  { destruct es; cbn; [done|lia]. }
  rewrite Hx, Hlast. cbn [mbind option_bind].
  unfold heap.downHeap, heap.Size. cbn [heap.elements heap.compare].
  rewrite length_insert.
  assert (Forall P (take (length es - 1) (<[0 := last]> es))) as HP'.
  { apply Forall_take, Forall_insert; [done|].
    by eapply Forall_lookup_1. }
  rewrite <- (downHeap_loop_same_sign _ _ _ HP').
  destruct (downHeap_loop_returns c1
              (S (length (take (length es - 1) (<[0 := last]> es))))
              (take (length es - 1) (<[0 := last]> es)) 0)
    as (es' & -> & Hperm); [lia|].
  cbn [mbind option_bind]. exists x, es'. split; [done|]. split; [done|].
  rewrite Hperm. symmetry. by apply remove_root_Permutation.
Qed.

Lemma heap_do_calls_same_sign cs es :
  Forall P es -> Forall P (inserted cs) ->
  exists rs es',
    heap_do_calls {| heap.elements := es; heap.compare := c1 |} cs =
      Some (rs, {| heap.elements := es'; heap.compare := c1 |}) /\
    heap_do_calls {| heap.elements := es; heap.compare := c2 |} cs =
      Some (rs, {| heap.elements := es'; heap.compare := c2 |}).
Proof.
  revert es. induction cs as [|c cs IH]; intros es HP Hins; [by eauto|].
  assert (inserted (c :: cs) = inserted [c] ++ inserted cs) as Hcons
    by (unfold inserted; by rewrite <- omap_app).
  rewrite Hcons in Hins. apply Forall_app in Hins as [Hc Hcs].
  cbn [heap_do_calls].
  destruct c as [e| |]; cbn [heap_do_call].
  - assert (P e) as He by (by inversion Hc).
    destruct (Insert_same_sign es e HP He) as (es1 & -> & -> & Hperm).
    cbn [mbind option_bind].
    destruct (IH es1) as (rs & es' & -> & ->); [|done|].
    + rewrite Hperm. apply Forall_app. split; [done|].
      by apply Forall_singleton.
    + cbn [mbind option_bind]. by eauto.
  - destruct (decide (es = [])) as [->|Hne].
    + rewrite !Remove_empty by done. cbn [mbind option_bind].
      destruct (IH [] HP Hcs) as (rs & es' & -> & ->).
      cbn [mbind option_bind]. by eauto.
    + destruct (Remove_same_sign es HP Hne) as (x & es1 & -> & -> & Hperm).
      cbn [mbind option_bind].
      destruct (IH es1) as (rs & es' & -> & ->); [|done|].
      * rewrite Hperm in HP. by apply Forall_cons in HP as [_ ?].
      * cbn [mbind option_bind]. by eauto.
  - unfold heap.Peek, heap.Size. cbn [heap.elements heap.compare].
    destruct (decide (length es = 0)).
    + cbn [mbind option_bind].
      destruct (IH es HP Hcs) as (rs & es' & -> & ->).
      cbn [mbind option_bind]. by eauto.
    + destruct (es !! 0) as [x|] eqn:Hx.
      * cbn [mbind option_bind].
        destruct (IH es HP Hcs) as (rs & es' & -> & ->).
        cbn [mbind option_bind]. by eauto.
      * apply lookup_ge_None in Hx. lia.
Qed.

End same_sign.

(** X5. A heap uses its comparator only through the sign of its results
    on the elements it holds. When two comparators have the same sign on
    all elements with a property [P], which the elements of the heap and
    the inserted elements have, a sequence of calls of [Insert], [Remove]
    and [Peek] returns the same results and leaves the same slice under
    either comparator. *)
Theorem heap_calls_depend_on_signs {T : Type} `{GoZero T}
    (P : T -> Prop) (c1 c2 : T -> T -> Z)
    (es : list T) (cs : list (heap_call T)) :
  (forall x y, P x -> P y -> Z.sgn (c1 x y) = Z.sgn (c2 x y)) ->
  Forall P es ->
  Forall P (inserted cs) ->
  exists rs es',
    heap_do_calls {| heap.elements := es; heap.compare := c1 |} cs =
      Some (rs, {| heap.elements := es'; heap.compare := c1 |}) /\
    heap_do_calls {| heap.elements := es; heap.compare := c2 |} cs =
      Some (rs, {| heap.elements := es'; heap.compare := c2 |}).
Proof.
  intros Hsame HP Hins. by apply (heap_do_calls_same_sign P).
Qed.

Lemma heap_calls_depend_on_signs_witness :
  let P := fun z : Z => 0 <= z <= 100 in
  let cs := [HeapInsert 5; HeapInsert 3; HeapRemove; HeapPeek] in
  (forall x y, P x -> P y -> Z.sgn (intComparator x y) = Z.sgn (x - y)) /\
  Forall P [] /\
  Forall P (inserted cs) /\
  exists rs es',
    heap_do_calls {| heap.elements := []; heap.compare := intComparator |} cs =
      Some (rs, {| heap.elements := es'; heap.compare := intComparator |}) /\
    heap_do_calls {| heap.elements := []; heap.compare := Z.sub |} cs =
      Some (rs, {| heap.elements := es'; heap.compare := Z.sub |}).
Proof.
  cbv zeta.
  assert (forall x y : Z, 0 <= x <= 100 -> 0 <= y <= 100 ->
            Z.sgn (intComparator x y) = Z.sgn (x - y)) as Hsame.
  { intros x y _ _. unfold intComparator. repeat case_decide; lia. }
  assert (Forall (fun z : Z => 0 <= z <= 100) []) as Hnil by constructor.
  assert (Forall (fun z : Z => 0 <= z <= 100)
            (inserted [HeapInsert 5; HeapInsert 3; HeapRemove; HeapPeek]))
    as Hins by (repeat constructor; lia).
  split; [exact Hsame|]. split; [exact Hnil|]. split; [exact Hins|].
  exact (heap_calls_depend_on_signs (fun z : Z => 0 <= z <= 100)
           intComparator Z.sub [] _ Hsame Hnil Hins).
Defined.

(** ** The methods of [PriorityQueue] *)

(** X6. [Enqueue] returns on every queue, for every value and priority:
    it adds the pair of the value and the priority to the elements of the
    heap, so [Size] grows by one and [IsEmpty] is false, and it keeps the
    comparator. *)
Theorem Enqueue_adds_one {T : Type} `{GoZero T}
    (pq : priorityqueue.PriorityQueue T) (v : T) (p : Z) :
  exists pq',
    priorityqueue.Enqueue pq v p = Some pq' /\
    priorityqueue.Size pq' = S (priorityqueue.Size pq) /\
    priorityqueue.IsEmpty pq' = false /\
    heap.Comparator (priorityqueue.heap pq') =
      heap.Comparator (priorityqueue.heap pq) /\
    Permutation (heap.elements (priorityqueue.heap pq'))
                (heap.elements (priorityqueue.heap pq) ++ [wrapped (v, p)]).
Proof.
  destruct pq as [h]. unfold priorityqueue.Enqueue. cbn [priorityqueue.heap].
  destruct (Insert_returns h {| priorityqueue.value := v;
                                priorityqueue.priority := p |})
    as (h' & -> & Hc & Hp).
  cbn [mbind option_bind]. eexists. split; [done|].
  assert (priorityqueue.Size {| priorityqueue.heap := h' |} =
          S (priorityqueue.Size {| priorityqueue.heap := h |})) as Hsize.
  { unfold priorityqueue.Size, heap.Size. cbn [priorityqueue.heap].
    apply Permutation_length in Hp. rewrite Hp, length_app. cbn. lia. }
  split; [done|]. split.
  - unfold priorityqueue.IsEmpty. rewrite Hsize. by apply bool_decide_eq_false.
  - split; [done|]. exact Hp.
Qed.

(** X7. On a queue with no element, [Peek] returns the zero value and the
    error "empty heap", and [IsEmpty] is true. On a queue with an element,
    [Peek] returns the value of the pair at the root of the heap with a
    nil error, [Dequeue] returns that same value, leaving one element
    fewer, and [IsEmpty] is false. [Peek] leaves the queue as it is. *)
Theorem Peek_agrees_with_Dequeue {T : Type} `{GoZero T}
    (pq : priorityqueue.PriorityQueue T) :
  match heap.elements (priorityqueue.heap pq) with
  | [] =>
      priorityqueue.Peek pq = Some (zero_value, errors_New "empty heap", pq) /\
      priorityqueue.IsEmpty pq = true /\
      priorityqueue.Size pq = 0%nat
  | item :: _ =>
      priorityqueue.Peek pq = Some (priorityqueue.value item, None, pq) /\
      priorityqueue.IsEmpty pq = false /\
      exists pq',
        priorityqueue.Dequeue pq =
          Some (priorityqueue.value item, None, pq') /\
        S (priorityqueue.Size pq') = priorityqueue.Size pq
  end.
Proof.
  destruct pq as [h]. cbn [priorityqueue.heap].
  unfold priorityqueue.Peek, priorityqueue.IsEmpty, priorityqueue.Size.
  cbn [priorityqueue.heap].
  destruct (heap.elements h) as [|item rest] eqn:Hes.
  - assert (heap.Size h = 0%nat) as Hsize by (unfold heap.Size; by rewrite Hes).
    unfold heap.Peek. rewrite decide_True by done. cbn [mbind option_bind].
    split; [done|]. split; [by apply bool_decide_eq_true|done].
  - assert (heap.Size h <> 0%nat) as Hsize by (unfold heap.Size; by rewrite Hes).
    rewrite (Peek_root h item) by (by rewrite Hes).
    cbn [mbind option_bind]. split; [done|].
    split; [by apply bool_decide_eq_false|].
    destruct (Remove_returns h Hsize) as (x & h' & Hrem & Hroot & _ & Hp).
    rewrite Hes in Hroot. injection Hroot as <-.
    exists {| priorityqueue.heap := h' |}.
    unfold priorityqueue.Dequeue. cbn [priorityqueue.heap]. rewrite Hrem.
    split; [done|].
    apply Permutation_length in Hp. unfold heap.Size. by rewrite Hp.
Qed.

(** ** Priority order *)

Lemma max_int_min_int w : min_int w = - max_int w - 1 /\ 0 < max_int w.
Proof. destruct w; vm_compute; split; congruence. Qed.

Lemma StronglySorted_weaken {A : Type} (R1 R2 : A -> A -> Prop) (l : list A) :
  (forall a b, R1 a b -> R2 a b) -> StronglySorted R1 l -> StronglySorted R2 l.
Proof.
  intros Himp. induction 1 as [|a l _ IH Hall]; constructor; [done|].
  eapply Forall_impl; [exact Hall|]. by intros b; apply Himp.
Qed.

Section priority_order.
Context {T : Type} `{GoZero T}.
Context (P : priorityqueue.prioritized T -> Prop).
Context (c1 c2 : priorityqueue.prioritized T ->
                 priorityqueue.prioritized T -> Z).
Context (Hsame : same_sign_on P c1 c2).
Implicit Types (es out : list (priorityqueue.prioritized T)).
Local Open Scope nat_scope.

Lemma enqueue_all_same_sign items es :
  Forall P es -> Forall P (wrapped <$> items) ->
  exists es',
    enqueue_all
      {| priorityqueue.heap :=
           {| heap.elements := es; heap.compare := c1 |} |} items =
      Some {| priorityqueue.heap :=
                {| heap.elements := es'; heap.compare := c1 |} |} /\
    insert_all {| heap.elements := es; heap.compare := c2 |}
      (wrapped <$> items) =
      Some {| heap.elements := es'; heap.compare := c2 |}.
Proof.
  revert es. induction items as [|[v p] items IH]; intros es HP Hitems.
  - by exists es.
  - rewrite fmap_cons in Hitems. apply Forall_cons in Hitems as [Hvp Hitems].
    destruct (Insert_same_sign P c1 c2 Hsame es (wrapped (v, p)) HP Hvp)
      as (es1 & Hins1 & Hins2 & Hperm).
    destruct (IH es1) as (es' & Henq & Hall); [|done|].
    { rewrite Hperm. apply Forall_app. split; [done|].
      by apply Forall_singleton. }
    exists es'. cbn [enqueue_all insert_all fmap list_fmap].
    unfold priorityqueue.Enqueue. cbn [priorityqueue.heap].
    change (wrapped (v, p)) with
      {| priorityqueue.value := v; priorityqueue.priority := p |} in *.
    rewrite Hins1, Hins2. cbn [mbind option_bind]. by split.
Qed.

Lemma dequeue_all_loop_same_sign fuel es :
  Forall P es -> length es < fuel ->
  exists out es',
    remove_all_loop fuel {| heap.elements := es; heap.compare := c2 |} =
      Some (out, {| heap.elements := es'; heap.compare := c2 |}) /\
    dequeue_all_loop fuel
      {| priorityqueue.heap :=
           {| heap.elements := es; heap.compare := c1 |} |} =
      Some (priorityqueue.value <$> out,
            {| priorityqueue.heap :=
                 {| heap.elements := es'; heap.compare := c1 |} |}).
Proof.
  revert es. induction fuel as [|fuel IH]; intros es HP Hfuel; [lia|].
  cbn [remove_all_loop dequeue_all_loop].
  unfold priorityqueue.IsEmpty, priorityqueue.Size, heap.Size.
  cbn [priorityqueue.heap heap.elements].
  destruct (decide (es = [])) as [->|Hne].
  - exists [], []. by split.
  - rewrite decide_False by (by destruct es).
    rewrite bool_decide_eq_false_2 by (by destruct es).
    destruct (Remove_same_sign P c1 c2 Hsame es HP Hne)
      as (x & es1 & Hrem1 & Hrem2 & Hperm).
    destruct (IH es1) as (out & es' & Hloop2 & Hloop1).
    { rewrite Hperm in HP. by apply Forall_cons in HP as [_ ?]. }
    { apply Permutation_length in Hperm. cbn [length] in Hperm. lia. }
    exists (x :: out), es'.
    unfold priorityqueue.Dequeue. cbn [priorityqueue.heap].
    rewrite Hrem1, Hrem2. cbn [mbind option_bind].
    rewrite Hloop1, Hloop2. by split.
Qed.

Context (Htotal : TotalOrder c2).

(** Enqueueing items and dequeueing until the queue is empty returns the
    values of the items, ordered by the comparator [c2]. *)
Lemma queue_sorted_extraction items :
  Forall P (wrapped <$> items) ->
  exists pq out pq',
    enqueue_all
      {| priorityqueue.heap := heap.NewGenericHeap c1 |} items = Some pq /\
    dequeue_all pq = Some (priorityqueue.value <$> out, pq') /\
    priorityqueue.Size pq' = 0 /\
    out ≡ₚ wrapped <$> items /\
    StronglySorted (fun a b => (c2 a b <= 0)%Z) out.
Proof.
  intros Hitems.
  destruct (enqueue_all_same_sign items [] (Forall_nil_2 _) Hitems)
    as (es & Henq & Hall).
  destruct (insert_all_spec (wrapped <$> items)
              {| heap.elements := []; heap.compare := c2 |})
    as (h2 & Hall' & _ & Hperm & Hheap).
  rewrite Hall in Hall'. injection Hall' as <-.
  cbn [heap.elements heap.compare app] in Hperm, Hheap.
  specialize (Hheap Htotal (heap_property_nil c2)).
  assert (Forall P es) as HP by (by rewrite Hperm).
  destruct (dequeue_all_loop_same_sign (S (length es)) es HP)
    as (out & es' & Hloop2 & Hloop1); [lia|].
  destruct (remove_all_loop_spec (S (length es))
              {| heap.elements := es; heap.compare := c2 |})
    as (out' & h' & Hloop' & Hempty & Hperm' & Hsorted); [done|done|cbn; lia|].
  rewrite Hloop2 in Hloop'. injection Hloop' as <- <-.
  eexists _, out, _. split; [exact Henq|]. split; [exact Hloop1|].
  split; [exact Hempty|]. split; [by rewrite Hperm'|]. exact Hsorted.
Qed.

End priority_order.

(** X8. A min-queue returns values by ascending priority when the
    priorities lie in a range no wider than the largest [int], such as
    the non-negative ones: no difference of two of them overflows. After
    [Enqueue] of each item, calling [Dequeue] until the queue is empty
    returns (every call returns) the values of the items, in an order in
    which no item has a lower priority than an earlier one. *)
Theorem min_queue_dequeues_by_priority {T : Type} `{GoZero T}
    (w : int_width) (lo : Z) (items : list (T * Z)) :
  Forall (fun item => lo <= snd item <= lo + max_int w) items ->
  exists pq out pq',
    enqueue_all (priorityqueue.NewMinPriorityQueue w) items = Some pq /\
    dequeue_all pq = Some (map priorityqueue.value out, pq') /\
    priorityqueue.IsEmpty pq' = true /\
    Permutation out (map wrapped items) /\
    StronglySorted
      (fun a b => priorityqueue.priority a <= priorityqueue.priority b) out.
Proof.
  intros Hitems.
  set (P := fun a : priorityqueue.prioritized T =>
              lo <= priorityqueue.priority a <= lo + max_int w).
  set (c2 := fun a b : priorityqueue.prioritized T =>
               priorityqueue.priority a - priorityqueue.priority b).
  pose proof (max_int_min_int w) as [Hmin Hmax].
  destruct (queue_sorted_extraction P
              (fun a b => wrap w (priorityqueue.priority a -
                                  priorityqueue.priority b)) c2)
    with (items := items)
    as (pq & out & pq' & Henq & Hdeq & Hsize & Hperm & Hsorted).
  - intros a b Ha Hb. apply wrap_sgn; unfold c2, in_int, P in *; lia.
  - split; unfold c2; intros; lia.
  - apply Forall_fmap. eapply Forall_impl; [exact Hitems|]. by intros [v p].
  - exists pq, out, pq'. split; [exact Henq|]. split; [exact Hdeq|].
    split; [by apply bool_decide_eq_true|]. split; [exact Hperm|].
    eapply StronglySorted_weaken; [|exact Hsorted].
    unfold c2. intros a b. cbn. lia.
Qed.

Lemma min_queue_dequeues_by_priority_witness :
  let items := [("low"%string, 10); ("medium"%string, 5);
                ("high"%string, 1); ("also high"%string, 1)] in
  Forall (fun item => 0 <= snd item <= 0 + max_int W64) items /\
  exists pq out pq',
    enqueue_all (priorityqueue.NewMinPriorityQueue W64) items = Some pq /\
    dequeue_all pq = Some (map priorityqueue.value out, pq') /\
    priorityqueue.IsEmpty pq' = true /\
    Permutation out (map wrapped items) /\
    StronglySorted
      (fun a b => priorityqueue.priority a <= priorityqueue.priority b) out.
Proof.
  cbv zeta.
  assert (Forall (fun item : string * Z => 0 <= snd item <= 0 + max_int W64)
            [("low"%string, 10); ("medium"%string, 5);
             ("high"%string, 1); ("also high"%string, 1)]) as Hitems
    by (repeat constructor; vm_compute; congruence).
  split; [exact Hitems|].
  exact (min_queue_dequeues_by_priority W64 0 _ Hitems).
Defined.

(** X9. A max-queue returns values by descending priority under the same
    condition on the priorities: calling [Dequeue] until the queue is
    empty returns the values of the items in an order in which no item has
    a higher priority than an earlier one. *)
Theorem max_queue_dequeues_by_priority {T : Type} `{GoZero T}
    (w : int_width) (lo : Z) (items : list (T * Z)) :
  Forall (fun item => lo <= snd item <= lo + max_int w) items ->
  exists pq out pq',
    enqueue_all (priorityqueue.NewMaxPriorityQueue w) items = Some pq /\
    dequeue_all pq = Some (map priorityqueue.value out, pq') /\
    priorityqueue.IsEmpty pq' = true /\
    Permutation out (map wrapped items) /\
    StronglySorted
      (fun a b => priorityqueue.priority b <= priorityqueue.priority a) out.
Proof.
  intros Hitems.
  set (P := fun a : priorityqueue.prioritized T =>
              lo <= priorityqueue.priority a <= lo + max_int w).
  set (c2 := fun a b : priorityqueue.prioritized T =>
               priorityqueue.priority b - priorityqueue.priority a).
  pose proof (max_int_min_int w) as [Hmin Hmax].
  destruct (queue_sorted_extraction P
              (fun a b => wrap w (priorityqueue.priority b -
                                  priorityqueue.priority a)) c2)
    with (items := items)
    as (pq & out & pq' & Henq & Hdeq & Hsize & Hperm & Hsorted).
  - intros a b Ha Hb. apply wrap_sgn; unfold c2, in_int, P in *; lia.
  - split; unfold c2; intros; lia.
  - apply Forall_fmap. eapply Forall_impl; [exact Hitems|]. by intros [v p].
  - exists pq, out, pq'. split; [exact Henq|]. split; [exact Hdeq|].
    split; [by apply bool_decide_eq_true|]. split; [exact Hperm|].
    eapply StronglySorted_weaken; [|exact Hsorted].
    unfold c2. intros a b. cbn. lia.
Qed.

Lemma max_queue_dequeues_by_priority_witness :
  let items := [("low"%string, 1); ("medium"%string, 5);
                ("high"%string, 10); ("also high"%string, 10)] in
  Forall (fun item => 0 <= snd item <= 0 + max_int W32) items /\
  exists pq out pq',
    enqueue_all (priorityqueue.NewMaxPriorityQueue W32) items = Some pq /\
    dequeue_all pq = Some (map priorityqueue.value out, pq') /\
    priorityqueue.IsEmpty pq' = true /\
    Permutation out (map wrapped items) /\
    StronglySorted
      (fun a b => priorityqueue.priority b <= priorityqueue.priority a) out.
Proof.
  cbv zeta.
  assert (Forall (fun item : string * Z => 0 <= snd item <= 0 + max_int W32)
            [("low"%string, 1); ("medium"%string, 5);
             ("high"%string, 10); ("also high"%string, 10)]) as Hitems
    by (repeat constructor; vm_compute; congruence).
  split; [exact Hitems|].
  exact (max_queue_dequeues_by_priority W32 0 _ Hitems).
Defined.

(** ** Equal priorities *)

Lemma wrap_0 w : wrap w 0 = 0.
Proof. by destruct w. Qed.

(** On a heap with one element [a], an element [b] that does not compare
    greater than [a] is inserted above it, and [Remove] returns it. *)
Lemma Insert_second_not_after {T : Type} `{GoZero T}
    (cmp : T -> T -> Z) (a b : T) :
  cmp b a <= 0 ->
  heap.Insert {| heap.elements := [a]; heap.compare := cmp |} b =
    Some {| heap.elements := [b; a]; heap.compare := cmp |} /\
  heap.Remove {| heap.elements := [b; a]; heap.compare := cmp |} =
    Some (b, None, {| heap.elements := [a]; heap.compare := cmp |}).
Proof.
  intros Hba. split; [|reflexivity].
  assert (heap.upHeap_loop cmp 2 [a; b] 1 = Some [b; a]) as Hup.
  { rewrite upHeap_loop_S. rewrite decide_True by lia.
    change ((1 - 1) / 2)%nat with 0%nat.
    change ([a; b] !! 1%nat) with (Some b).
    change ([a; b] !! 0%nat) with (Some a).
    cbn [mbind option_bind]. by rewrite decide_False by lia. }
  change (heap.Insert {| heap.elements := [a]; heap.compare := cmp |} b)
    with (es ← heap.upHeap_loop cmp 2 [a; b] 1;
          Some {| heap.elements := es; heap.compare := cmp |}).
  by rewrite Hup.
Qed.

(** X10. A priority queue does not keep the order of arrival among equal
    priorities: when two values are enqueued with the same priority on a
    new min-queue or max-queue, [Dequeue] returns the second one first,
    and the first one is left at the front. *)
Theorem equal_priorities_later_first {T : Type} `{GoZero T}
    (w : int_width) (v1 v2 : T) (p : Z) :
  (exists pq1 pq2 pq3,
      priorityqueue.Enqueue (priorityqueue.NewMinPriorityQueue w) v1 p =
        Some pq1 /\
      priorityqueue.Enqueue pq1 v2 p = Some pq2 /\
      priorityqueue.Dequeue pq2 = Some (v2, None, pq3) /\
      priorityqueue.Peek pq3 = Some (v1, None, pq3)) /\
  (exists pq1 pq2 pq3,
      priorityqueue.Enqueue (priorityqueue.NewMaxPriorityQueue w) v1 p =
        Some pq1 /\
      priorityqueue.Enqueue pq1 v2 p = Some pq2 /\
      priorityqueue.Dequeue pq2 = Some (v2, None, pq3) /\
      priorityqueue.Peek pq3 = Some (v1, None, pq3)).
Proof.
  assert (forall c : priorityqueue.prioritized T ->
                     priorityqueue.prioritized T -> Z,
            (forall a b, priorityqueue.priority a = priorityqueue.priority b ->
                         c b a = 0) ->
            exists pq1 pq2 pq3,
              priorityqueue.Enqueue
                {| priorityqueue.heap := heap.NewGenericHeap c |} v1 p =
                Some pq1 /\
              priorityqueue.Enqueue pq1 v2 p = Some pq2 /\
              priorityqueue.Dequeue pq2 = Some (v2, None, pq3) /\
              priorityqueue.Peek pq3 = Some (v1, None, pq3)) as Hgen.
  { intros c Hc.
    destruct (Insert_second_not_after c
                {| priorityqueue.value := v1; priorityqueue.priority := p |}
                {| priorityqueue.value := v2; priorityqueue.priority := p |})
      as [Hins Hrem].
    { rewrite Hc by done. lia. }
    exists {| priorityqueue.heap :=
                {| heap.elements :=
                     [{| priorityqueue.value := v1;
                         priorityqueue.priority := p |}];
                   heap.compare := c |} |}.
    eexists _, _. split; [reflexivity|].
    unfold priorityqueue.Enqueue, priorityqueue.Dequeue.
    cbn [priorityqueue.heap]. rewrite Hins. cbn [mbind option_bind].
    split; [reflexivity|]. cbn [priorityqueue.heap]. rewrite Hrem.
    cbn [mbind option_bind]. split; reflexivity. }
  split; apply Hgen; intros a b Hab; cbn; rewrite Hab, Z.sub_diag;
    apply wrap_0.
Qed.

(** * Package bitmap *)

Section bitmap_bits.
Implicit Types (b pos q : Z) (bm : bitmap.BitMap).

Lemma shl32_1 pos : 0 <= pos < 32 -> bitmap.shl32 1 pos = 2 ^ pos.
Proof.
  intros Hpos. unfold bitmap.shl32. rewrite Z.shiftl_1_l.
  apply Z.mod_small. split; [by apply Z.pow_nonneg|].
  apply Z.pow_lt_mono_r; lia.
Qed.

Lemma testbit_pow2 pos q :
  0 <= pos -> Z.testbit (2 ^ pos) q = bool_decide (q = pos).
Proof.
  intros Hpos. rewrite Z.pow2_bits_eqb by done.
  destruct (Z.eqb_spec pos q) as [->|Hne].
  - by rewrite bool_decide_eq_true_2.
  - by rewrite bool_decide_eq_false_2.
Qed.

Lemma land_pow2 b pos :
  0 <= pos -> Z.land b (2 ^ pos) = if Z.testbit b pos then 2 ^ pos else 0.
Proof.
  intros Hpos. apply Z.bits_inj'. intros n Hn.
  rewrite Z.land_spec, testbit_pow2 by done.
  destruct (Z.testbit b pos) eqn:Hb.
  - rewrite testbit_pow2 by done. case_bool_decide as Hq.
    + subst n. by rewrite Hb.
    + by rewrite andb_false_r.
  - rewrite Z.bits_0. case_bool_decide as Hq.
    + subst n. by rewrite Hb.
    + by rewrite andb_false_r.
Qed.

(** In range, [IsOn] reads the bit of the map at the position. *)
Lemma IsOn_testbit bm pos :
  0 <= pos < 32 -> bitmap.IsOn bm pos = (Z.testbit (bitmap.bits bm) pos, None).
Proof.
  intros Hpos. unfold bitmap.IsOn, bitmap.isOutOfRange, bitmap.BitmapSize.
  rewrite bool_decide_eq_false_2 by lia.
  rewrite shl32_1, land_pow2 by lia.
  assert (0 < 2 ^ pos) by (apply Z.pow_pos_nonneg; lia).
  destruct (Z.testbit (bitmap.bits bm) pos); [|done].
  by rewrite (proj2 (Z.eqb_neq _ _)) by lia.
Qed.

Lemma is_uint32_land_ones b :
  bitmap.is_uint32 b <-> Z.land b (Z.ones 32) = b.
Proof.
  unfold bitmap.is_uint32. rewrite Z.land_ones by lia. split.
  - intros Hb. by apply Z.mod_small.
  - intros <-. apply Z.mod_pos_bound. lia.
Qed.

Lemma uint32_testbit_high b n :
  bitmap.is_uint32 b -> 32 <= n -> Z.testbit b n = false.
Proof.
  intros Hb%is_uint32_land_ones Hn. rewrite <- Hb, Z.land_spec.
  by rewrite Z.ones_spec_high, andb_false_r by lia.
Qed.

Lemma is_uint32_of_bits b :
  (forall n, 32 <= n -> Z.testbit b n = false) -> bitmap.is_uint32 b.
Proof.
  intros Hhigh. apply is_uint32_land_ones, Z.bits_inj'. intros n Hn.
  rewrite Z.land_spec. destruct (decide (n < 32)).
  - by rewrite Z.ones_spec_low, andb_true_r by lia.
  - by rewrite Z.ones_spec_high, andb_false_r, Hhigh by lia.
Qed.

Lemma is_uint32_pow2 pos : 0 <= pos < 32 -> bitmap.is_uint32 (2 ^ pos).
Proof.
  intros Hpos. split; [by apply Z.pow_nonneg|]. apply Z.pow_lt_mono_r; lia.
Qed.

Lemma testbit_not32_pow2 pos q :
  0 <= pos < 32 -> 0 <= q < 32 ->
  Z.testbit (bitmap.not32 (2 ^ pos)) q = negb (bool_decide (q = pos)).
Proof.
  intros Hpos Hq. unfold bitmap.not32.
  rewrite Z.lxor_spec, testbit_pow2, Z.ones_spec_low by lia.
  by rewrite xorb_true_r.
Qed.

End bitmap_bits.

(** X11. [On], for a position that is a [uint8] on a map that is a
    [uint32]: below 32 it returns nil, and afterwards [IsOn] is true at
    the position and as before at every other position; from 32 up it
    returns [ErrInvalidPosition] and leaves the map as it was. The map
    stays a [uint32]. *)
Theorem On_sets_one_bit (bm : bitmap.BitMap) (pos : Z) :
  bitmap.is_uint32 (bitmap.bits bm) ->
  bitmap.is_uint8 pos ->
  bitmap.is_uint32 (bitmap.bits (snd (bitmap.On bm pos))) /\
  (pos < 32 ->
   fst (bitmap.On bm pos) = None /\
   forall q, 0 <= q < 32 ->
     bitmap.IsOn (snd (bitmap.On bm pos)) q =
       (if decide (q = pos) then true else fst (bitmap.IsOn bm q), None)) /\
  (32 <= pos -> bitmap.On bm pos = (bitmap.ErrInvalidPosition, bm)).
Proof.
  intros Hbm [Hpos _]. unfold bitmap.On, bitmap.isOutOfRange, bitmap.BitmapSize.
  case_bool_decide as Hrange; cbn [fst snd].
  { split; [done|]. split; [lia|done]. }
  rewrite shl32_1 by lia. split; [|split; [|lia]].
  - apply is_uint32_of_bits. intros n Hn. cbn [bitmap.bits].
    rewrite Z.lor_spec, (uint32_testbit_high _ n Hbm Hn).
    by rewrite (uint32_testbit_high _ n (is_uint32_pow2 pos ltac:(lia)) Hn).
  - intros _. split; [done|]. intros q Hq.
    rewrite !IsOn_testbit by done. cbn [bitmap.bits fst].
    rewrite Z.lor_spec, testbit_pow2 by lia.
    case_decide as Hqp.
    + rewrite bool_decide_eq_true_2 by done. by rewrite orb_true_r.
    + rewrite bool_decide_eq_false_2 by done. by rewrite orb_false_r.
Qed.

Lemma On_sets_one_bit_witness :
  let bm := {| bitmap.bits := 5 |} in
  bitmap.is_uint32 (bitmap.bits bm) /\
  bitmap.is_uint8 31 /\
  bitmap.is_uint32 (bitmap.bits (snd (bitmap.On bm 31))) /\
  (31 < 32 ->
   fst (bitmap.On bm 31) = None /\
   forall q, 0 <= q < 32 ->
     bitmap.IsOn (snd (bitmap.On bm 31)) q =
       (if decide (q = 31) then true else fst (bitmap.IsOn bm q), None)) /\
  (32 <= 31 -> bitmap.On bm 31 = (bitmap.ErrInvalidPosition, bm)).
Proof.
  cbv zeta.
  assert (bitmap.is_uint32 5) as Hbm by (vm_compute; split; congruence).
  assert (bitmap.is_uint8 31) as Hpos by (vm_compute; split; congruence).
  split; [exact Hbm|]. split; [exact Hpos|].
  exact (On_sets_one_bit {| bitmap.bits := 5 |} 31 Hbm Hpos).
Defined.

(** X12. [Off], likewise: below 32 it returns nil, and afterwards [IsOn]
    is false at the position and as before at every other position; from
    32 up it returns [ErrInvalidPosition] and leaves the map as it was.
    The map stays a [uint32]. *)
Theorem Off_clears_one_bit (bm : bitmap.BitMap) (pos : Z) :
  bitmap.is_uint32 (bitmap.bits bm) ->
  bitmap.is_uint8 pos ->
  bitmap.is_uint32 (bitmap.bits (snd (bitmap.Off bm pos))) /\
  (pos < 32 ->
   fst (bitmap.Off bm pos) = None /\
   forall q, 0 <= q < 32 ->
     bitmap.IsOn (snd (bitmap.Off bm pos)) q =
       (if decide (q = pos) then false else fst (bitmap.IsOn bm q), None)) /\
  (32 <= pos -> bitmap.Off bm pos = (bitmap.ErrInvalidPosition, bm)).
Proof.
  intros Hbm [Hpos _]. unfold bitmap.Off, bitmap.isOutOfRange, bitmap.BitmapSize.
  case_bool_decide as Hrange; cbn [fst snd].
  { split; [done|]. split; [lia|done]. }
  rewrite shl32_1 by lia. split; [|split; [|lia]].
  - apply is_uint32_of_bits. intros n Hn. cbn [bitmap.bits].
    by rewrite Z.land_spec, (uint32_testbit_high _ n Hbm Hn).
  - intros _. split; [done|]. intros q Hq.
    rewrite !IsOn_testbit by done. cbn [bitmap.bits fst].
    rewrite Z.land_spec, testbit_not32_pow2 by lia.
    case_decide as Hqp.
    + rewrite bool_decide_eq_true_2 by done. by rewrite andb_false_r.
    + rewrite bool_decide_eq_false_2 by done. by rewrite andb_true_r.
Qed.

Lemma Off_clears_one_bit_witness :
  let bm := {| bitmap.bits := 4294967295 |} in
  bitmap.is_uint32 (bitmap.bits bm) /\
  bitmap.is_uint8 0 /\
  bitmap.is_uint32 (bitmap.bits (snd (bitmap.Off bm 0))) /\
  (0 < 32 ->
   fst (bitmap.Off bm 0) = None /\
   forall q, 0 <= q < 32 ->
     bitmap.IsOn (snd (bitmap.Off bm 0)) q =
       (if decide (q = 0) then false else fst (bitmap.IsOn bm q), None)) /\
  (32 <= 0 -> bitmap.Off bm 0 = (bitmap.ErrInvalidPosition, bm)).
Proof.
  cbv zeta.
  assert (bitmap.is_uint32 4294967295) as Hbm by (vm_compute; split; congruence).
  assert (bitmap.is_uint8 0) as Hpos by (vm_compute; split; congruence).
  split; [exact Hbm|]. split; [exact Hpos|].
  exact (Off_clears_one_bit {| bitmap.bits := 4294967295 |} 0 Hbm Hpos).
Defined.

(** X13. [Toggle], likewise: below 32 it returns nil, and afterwards
    [IsOn] is the opposite at the position and as before at every other
    position, and a second [Toggle] at the position gives back the map;
    from 32 up it returns [ErrInvalidPosition] and leaves the map as it
    was. The map stays a [uint32]. *)
Theorem Toggle_flips_one_bit (bm : bitmap.BitMap) (pos : Z) :
  bitmap.is_uint32 (bitmap.bits bm) ->
  bitmap.is_uint8 pos ->
  bitmap.is_uint32 (bitmap.bits (snd (bitmap.Toggle bm pos))) /\
  (pos < 32 ->
   fst (bitmap.Toggle bm pos) = None /\
   bitmap.Toggle (snd (bitmap.Toggle bm pos)) pos = (None, bm) /\
   forall q, 0 <= q < 32 ->
     bitmap.IsOn (snd (bitmap.Toggle bm pos)) q =
       (if decide (q = pos) then negb (fst (bitmap.IsOn bm q))
        else fst (bitmap.IsOn bm q), None)) /\
  (32 <= pos -> bitmap.Toggle bm pos = (bitmap.ErrInvalidPosition, bm)).
Proof.
  intros Hbm [Hpos _].
  unfold bitmap.Toggle, bitmap.isOutOfRange, bitmap.BitmapSize.
  case_bool_decide as Hrange; cbn [fst snd].
  { split; [done|]. split; [lia|done]. }
  rewrite shl32_1 by lia. split; [|split; [|lia]].
  - apply is_uint32_of_bits. intros n Hn. cbn [bitmap.bits].
    rewrite Z.lxor_spec, (uint32_testbit_high _ n Hbm Hn).
    by rewrite (uint32_testbit_high _ n (is_uint32_pow2 pos ltac:(lia)) Hn).
  - intros _. split; [done|]. split.
    + cbn [bitmap.bits]. destruct bm as [b]. cbn [bitmap.bits].
      by rewrite Z.lxor_assoc, Z.lxor_nilpotent, Z.lxor_0_r.
    + intros q Hq. rewrite !IsOn_testbit by done. cbn [bitmap.bits fst].
      rewrite Z.lxor_spec, testbit_pow2 by lia.
      case_decide as Hqp.
      * rewrite bool_decide_eq_true_2 by done. by rewrite xorb_true_r.
      * rewrite bool_decide_eq_false_2 by done. by rewrite xorb_false_r.
Qed.

Lemma Toggle_flips_one_bit_witness :
  let bm := {| bitmap.bits := 6 |} in
  bitmap.is_uint32 (bitmap.bits bm) /\
  bitmap.is_uint8 2 /\
  bitmap.is_uint32 (bitmap.bits (snd (bitmap.Toggle bm 2))) /\
  (2 < 32 ->
   fst (bitmap.Toggle bm 2) = None /\
   bitmap.Toggle (snd (bitmap.Toggle bm 2)) 2 = (None, bm) /\
   forall q, 0 <= q < 32 ->
     bitmap.IsOn (snd (bitmap.Toggle bm 2)) q =
       (if decide (q = 2) then negb (fst (bitmap.IsOn bm q))
        else fst (bitmap.IsOn bm q), None)) /\
  (32 <= 2 -> bitmap.Toggle bm 2 = (bitmap.ErrInvalidPosition, bm)).
Proof.
  cbv zeta.
  assert (bitmap.is_uint32 6) as Hbm by (vm_compute; split; congruence).
  assert (bitmap.is_uint8 2) as Hpos by (vm_compute; split; congruence).
  split; [exact Hbm|]. split; [exact Hpos|].
  exact (Toggle_flips_one_bit {| bitmap.bits := 6 |} 2 Hbm Hpos).
Defined.

(** X14. The 32 answers of [IsOn] and the value of [GetMap] determine each
    other: [IsOn] at a position below 32 is the bit of [GetMap] at that
    position, so two maps with the same answers at the 32 positions have
    the same [GetMap]; from 32 up [IsOn] returns false with
    [ErrInvalidPosition]. On a new map, and after [Reset], [GetMap] is 0
    and [IsOn] is false everywhere. *)
Theorem IsOn_reads_GetMap (bm1 bm2 : bitmap.BitMap) :
  bitmap.is_uint32 (bitmap.bits bm1) ->
  bitmap.is_uint32 (bitmap.bits bm2) ->
  (forall q, 0 <= q < 32 ->
     bitmap.IsOn bm1 q = (Z.testbit (bitmap.GetMap bm1) q, None)) /\
  (forall q, 32 <= q ->
     bitmap.IsOn bm1 q = (false, bitmap.ErrInvalidPosition)) /\
  ((forall q, 0 <= q < 32 -> bitmap.IsOn bm1 q = bitmap.IsOn bm2 q) ->
   bitmap.GetMap bm1 = bitmap.GetMap bm2) /\
  bitmap.GetMap (bitmap.Reset bm1) = 0 /\
  bitmap.Reset bm1 = bitmap.NewBitMap /\
  (forall q, 0 <= q < 32 ->
     bitmap.IsOn (bitmap.Reset bm1) q = (false, None)).
Proof.
  intros Hbm1 Hbm2. split; [by intros q Hq; apply IsOn_testbit|]. split.
  { intros q Hq. unfold bitmap.IsOn, bitmap.isOutOfRange, bitmap.BitmapSize.
    by rewrite bool_decide_eq_true_2 by lia. }
  split.
  { intros Hsame. unfold bitmap.GetMap.
    apply is_uint32_land_ones in Hbm1, Hbm2. rewrite <- Hbm1, <- Hbm2.
    apply Z.bits_inj'. intros q Hq. rewrite !Z.land_spec.
    destruct (decide (q < 32)) as [Hlt|Hge].
    - specialize (Hsame q ltac:(lia)).
      rewrite !IsOn_testbit in Hsame by lia. by injection Hsame as ->.
    - by rewrite Z.ones_spec_high, !andb_false_r by lia. }
  split; [done|]. split; [done|].
  intros q Hq. rewrite IsOn_testbit by done. cbn. by rewrite Z.bits_0.
Qed.

Lemma IsOn_reads_GetMap_witness :
  let bm1 := {| bitmap.bits := 5 |} in
  let bm2 := {| bitmap.bits := 5 |} in
  bitmap.is_uint32 (bitmap.bits bm1) /\
  bitmap.is_uint32 (bitmap.bits bm2) /\
  (forall q, 0 <= q < 32 ->
     bitmap.IsOn bm1 q = (Z.testbit (bitmap.GetMap bm1) q, None)) /\
  (forall q, 32 <= q ->
     bitmap.IsOn bm1 q = (false, bitmap.ErrInvalidPosition)) /\
  ((forall q, 0 <= q < 32 -> bitmap.IsOn bm1 q = bitmap.IsOn bm2 q) ->
   bitmap.GetMap bm1 = bitmap.GetMap bm2) /\
  bitmap.GetMap (bitmap.Reset bm1) = 0 /\
  bitmap.Reset bm1 = bitmap.NewBitMap /\
  (forall q, 0 <= q < 32 ->
     bitmap.IsOn (bitmap.Reset bm1) q = (false, None)).
Proof.
  cbv zeta.
  assert (bitmap.is_uint32 5) as Hbm by (vm_compute; split; congruence).
  split; [exact Hbm|]. split; [exact Hbm|].
  exact (IsOn_reads_GetMap {| bitmap.bits := 5 |} {| bitmap.bits := 5 |}
           Hbm Hbm).
Defined.

(** * Package stack *)

Section stack_proofs.
Context {T : Type} `{GoZero T}.
Implicit Types (s : stack.Stack T) (xs : list T).
Local Open Scope nat_scope.

Lemma push_all_data xs s : stack.data (push_all s xs) = stack.data s ++ xs.
Proof.
  revert s. induction xs as [|x xs IH]; intros s; cbn.
  - by rewrite app_nil_r.
  - unfold push_all in IH. rewrite IH. cbn. by rewrite <- app_assoc.
Qed.

Lemma Pop_snoc xs x :
  stack.Pop {| stack.data := xs ++ [x] |} =
    Some (x, None, {| stack.data := xs |}).
Proof.
  unfold stack.Pop, stack.IsEmpty. cbn [stack.data].
  rewrite bool_decide_eq_false_2 by (rewrite length_app; cbn; lia).
  rewrite length_app. cbn [length].
  replace (length xs + 1 - 1) with (length xs) by lia.
  rewrite lookup_app_r, Nat.sub_diag by lia. cbn [mbind option_bind lookup].
  cbn. by rewrite take_app_length.
Qed.

Lemma pop_all_loop_rev fuel xs :
  length xs < fuel ->
  pop_all_loop fuel {| stack.data := xs |} =
    Some (rev xs, {| stack.data := [] |}).
Proof.
  revert xs. induction fuel as [|fuel IH]; intros xs Hfuel; [lia|].
  cbn [pop_all_loop]. destruct xs as [|x front _] using rev_ind; [done|].
  unfold stack.IsEmpty. cbn [stack.data].
  rewrite bool_decide_eq_false_2 by (rewrite length_app; cbn; lia).
  rewrite Pop_snoc. cbn [mbind option_bind].
  rewrite IH by (rewrite length_app in Hfuel; cbn in Hfuel; lia).
  cbn [mbind option_bind]. by rewrite rev_unit.
Qed.

End stack_proofs.

(** X15. A stack is last in, first out, one call at a time: after
    [Push(x)] on any stack, [Top] returns [x] with a nil error and leaves
    the stack, [Pop] returns [x] with a nil error and leaves the stack as
    it was before the [Push]; [Size] has grown by one and [IsEmpty] is
    false. *)
Theorem stack_Push_then_Pop {T : Type} `{GoZero T}
    (s : stack.Stack T) (x : T) :
  stack.Pop (stack.Push s x) = Some (x, None, s) /\
  stack.Top (stack.Push s x) = Some (x, None, stack.Push s x) /\
  stack.Size (stack.Push s x) = S (stack.Size s) /\
  stack.IsEmpty (stack.Push s x) = false.
Proof.
  destruct s as [xs]. unfold stack.Push. cbn [stack.data].
  split; [apply Pop_snoc|].
  assert (length (xs ++ [x]) = S (length xs)) as Hlen
    by (rewrite length_app; cbn; lia).
  unfold stack.Top, stack.IsEmpty, stack.Size. cbn [stack.data].
  rewrite Hlen, bool_decide_eq_false_2 by lia.
  replace (S (length xs) - 1)%nat with (length xs) by lia.
  rewrite lookup_app_r, Nat.sub_diag by lia. done.
Qed.

(** X16. Pushing the elements of [xs] on a stack and popping until the
    stack is empty returns (every call returns) the elements of [xs] in
    reverse order, then the elements the stack had, the last pushed first.
    On the empty stack that is left, as on a new stack and after [Clear],
    [Pop] and [Top] return the zero value with the error "stack empty" and
    leave the stack empty. *)
Theorem stack_pop_all_reverses {T : Type} `{GoZero T}
    (s : stack.Stack T) (xs : list T) :
  pop_all (push_all s xs) =
    Some (rev xs ++ rev (stack.data s), stack.NewStack) /\
  stack.Clear s = stack.NewStack /\
  stack.Pop (stack.NewStack : stack.Stack T) =
    Some (zero_value, errors_New "stack empty", stack.NewStack) /\
  stack.Top (stack.NewStack : stack.Stack T) =
    Some (zero_value, errors_New "stack empty", stack.NewStack).
Proof.
  split; [|by repeat split].
  unfold pop_all, stack.Size.
  pose proof (push_all_data xs s) as Hdata.
  destruct (push_all s xs) as [ys]. cbn [stack.data] in *. subst ys.
  rewrite pop_all_loop_rev by lia. by rewrite rev_app_distr.
Qed.

(** * Package queue *)

Section queue_proofs.
Context {T : Type} `{GoZero T}.
Implicit Types (q : queue.Queue T) (xs : list T).
Local Open Scope nat_scope.

Lemma queue_enqueue_all_data xs q :
  queue.data (queue_enqueue_all q xs) = queue.data q ++ xs.
Proof.
  revert q. induction xs as [|x xs IH]; intros q; cbn.
  - by rewrite app_nil_r.
  - unfold queue_enqueue_all in IH. rewrite IH. cbn. by rewrite <- app_assoc.
Qed.

Lemma queue_dequeue_all_loop_data fuel xs :
  length xs < fuel ->
  queue_dequeue_all_loop fuel {| queue.data := xs |} =
    Some (xs, {| queue.data := [] |}).
Proof.
  revert xs. induction fuel as [|fuel IH]; intros xs Hfuel; [lia|].
  cbn [queue_dequeue_all_loop]. destruct xs as [|x xs]; [done|].
  unfold queue.Dequeue, queue.IsEmpty. cbn [queue.data].
  rewrite bool_decide_eq_false_2 by (cbn; lia).
  cbn [lookup list_lookup mbind option_bind drop]. rewrite drop_0.
  rewrite IH by (cbn in Hfuel; lia). done.
Qed.

End queue_proofs.

(** X17. A queue is first in, first out, one call at a time. After
    [Enqueue(x)] on an empty queue, [Front] and [Dequeue] return [x]. On
    a queue that is not empty, [Enqueue(x)] does not change what [Front]
    returns, and [Dequeue] after [Enqueue(x)] returns the old front and
    leaves the queue that [Enqueue(x)] after [Dequeue] leaves. [Size]
    grows by one with [Enqueue]. *)
Theorem queue_Enqueue_then_Dequeue {T : Type} `{GoZero T}
    (q : queue.Queue T) (x : T) :
  queue.Size (queue.Enqueue q x) = S (queue.Size q) /\
  match queue.data q with
  | [] =>
      queue.Front (queue.Enqueue q x) = Some (x, None, queue.Enqueue q x) /\
      queue.Dequeue (queue.Enqueue q x) =
        Some (x, None, {| queue.data := [] |})
  | head :: rest =>
      queue.Front q = Some (head, None, q) /\
      queue.Front (queue.Enqueue q x) = Some (head, None, queue.Enqueue q x) /\
      queue.Dequeue q = Some (head, None, {| queue.data := rest |}) /\
      queue.Dequeue (queue.Enqueue q x) =
        Some (head, None, queue.Enqueue {| queue.data := rest |} x)
  end.
Proof.
  destruct q as [xs]. unfold queue.Enqueue, queue.Size. cbn [queue.data].
  split; [rewrite length_app; cbn; lia|].
  destruct xs as [|head rest]; by repeat split.
Qed.

(** X18. Enqueueing the elements of [xs] on a queue and dequeueing until
    the queue is empty returns (every call returns) the elements the queue
    had, then the elements of [xs], in the order of arrival. On the empty
    queue that is left, as on a new queue and after [Clear], [Dequeue] and
    [Front] return the zero value with the error "empty queue" and leave
    the queue empty. *)
Theorem queue_dequeue_all_in_order {T : Type} `{GoZero T}
    (q : queue.Queue T) (xs : list T) :
  queue_dequeue_all (queue_enqueue_all q xs) =
    Some (queue.data q ++ xs, queue.Clear q) /\
  queue.Dequeue (queue.Clear q) =
    Some (zero_value, errors_New "empty queue", queue.Clear q) /\
  queue.Front (queue.Clear q) =
    Some (zero_value, errors_New "empty queue", queue.Clear q) /\
  queue.Dequeue (queue.NewQueue : queue.Queue T) =
    Some (zero_value, errors_New "empty queue", queue.NewQueue).
Proof.
  split; [|by repeat split].
  unfold queue_dequeue_all, queue.Size.
  pose proof (queue_enqueue_all_data xs q) as Hdata.
  destruct (queue_enqueue_all q xs) as [ys]. cbn [queue.data] in *. subst ys.
  by rewrite queue_dequeue_all_loop_data by lia.
Qed.
